(** * The photo catalog of photoshare: models, tag synchronizer and queries

    A shallow embedding of [src/commands.go], package [models]: the entity
    model, the pagination helpers, [UpdateTags], [Insert], [Get],
    [GetDetail], [Search] and [All], together with the relational store they
    talk to through gorp's [dbMap].

    Conventions of the embedding.
    - A Go [string] is a list of bytes ([str]).  The text helpers of the Go
      library ([strings.TrimSpace], [strings.ToLower]) and SQL's [UPPER] are
      modelled on ASCII text ([isASCII]); a property that depends on what
      they do to other text is stated for ASCII text.
    - [int64] is a [Z] with the wrap-around written out ([wrap64]).
    - [float64] is binary64 as specified by the standard library's
      [SpecFloat] (precision 53, [emax] 1024).
    - A Go [error] is [option error]; a nilable pointer result is an [option].
    - The store is explicit state: its tables, a clock, and a fault oracle
      that tells which call of [dbMap] fails. *)

From Stdlib Require Import ZArith List Ascii String Bool Lia.
From Stdlib Require Import Floats.SpecFloat.
From Stdlib Require Import Sorting.Sorted.
Import ListNotations.

Local Open Scope Z_scope.

(** ** Go strings *)

Module GoString.

Definition str : Type := list ascii.

(** A literal. *)
Definition lit (s : string) : str := list_ascii_of_string s.

(** [a == b] on strings. *)
Fixpoint str_eqb (a b : str) : bool :=
  match a, b with
  | [], [] => true
  | x :: a', y :: b' => Ascii.eqb x y && str_eqb a' b'
  | _, _ => false
  end.

Definition isEmpty (s : str) : bool :=
  match s with [] => true | _ :: _ => false end.

Definition space : ascii := " "%char.

(** ASCII text: every byte is a character of ASCII other than NUL.  On
    such text a byte is a rune, and PostgreSQL's [text] holds it as it is. *)
Definition asciiByte (c : ascii) : bool :=
  let n := N_of_ascii c in
  ((1 <=? n) && (n <=? 127))%N.

Definition isASCII (s : str) : bool := forallb asciiByte s.

(** [unicode.IsSpace] on ASCII: tab, line feed, vertical tab, form feed,
    carriage return and space. *)
Definition isSpace (c : ascii) : bool :=
  let n := N_of_ascii c in
  ((9 <=? n) && (n <=? 13) || (n =? 32))%N.

Fixpoint trimLeft (s : str) : str :=
  match s with
  | [] => []
  | c :: r => if isSpace c then trimLeft r else s
  end.

(** [strings.TrimSpace] on ASCII text: the white space is cut from both
    ends.  (Of other text Go also cuts the white space beyond ASCII, such as
    U+0085 and U+00A0, which this function leaves in place.) *)
Definition TrimSpace (s : str) : str :=
  rev (trimLeft (rev (trimLeft s))).

Definition lowerChar (c : ascii) : ascii :=
  let n := N_of_ascii c in
  if ((65 <=? n) && (n <=? 90))%N then ascii_of_N (n + 32) else c.

Definition upperChar (c : ascii) : ascii :=
  let n := N_of_ascii c in
  if ((97 <=? n) && (n <=? 122))%N then ascii_of_N (n - 32) else c.

(** [strings.ToLower] on ASCII text: the letters [A] to [Z] are mapped.
    (Of other text Go maps every upper-case letter of Unicode, which this
    function leaves in place.) *)
Definition ToLower (s : str) : str := map lowerChar s.

(** [strings.Split(s, " ")]: the pieces between single spaces; never the
    empty list, [Split "" " "] is [[""]]. *)
Fixpoint SplitSpace (s : str) : list str :=
  match s with
  | [] => [[]]
  | c :: r =>
      if Ascii.eqb c space then [] :: SplitSpace r
      else match SplitSpace r with
           | h :: t => (c :: h) :: t
           | [] => [[c]]
           end
  end.

(** [strings.Join(elems, " ")]. *)
Fixpoint JoinSpace (elems : list str) : str :=
  match elems with
  | [] => []
  | [e] => e
  | e :: rest => e ++ space :: JoinSpace rest
  end.

End GoString.

(** ** Machine numbers *)

Module GoNum.

Definition MinInt64 : Z := - 2 ^ 63.
Definition MaxInt64 : Z := 2 ^ 63 - 1.

(** Two's complement wrap-around of a mathematical integer into [int64]. *)
Definition wrap64 (z : Z) : Z := (z + 2 ^ 63) mod 2 ^ 64 - 2 ^ 63.

Definition sub64 (a b : Z) : Z := wrap64 (a - b).
Definition mul64 (a b : Z) : Z := wrap64 (a * b).

Definition prec : Z := 53.
Definition emax : Z := 1024.

Definition float64 : Type := spec_float.

(** The conversion [float64(n)] of an [int64]: round to nearest, ties to
    even. *)
Definition float64_of_int64 (n : Z) : float64 :=
  binary_normalize prec emax n 0 false.

(** Floating-point [/]. *)
Definition fdiv (x y : float64) : float64 := SFdiv prec emax x y.

(** [int64(math.Ceil(x))] for a finite [x]: [math.Ceil] yields the least
    integral value not below [x], itself a float64, and the conversion of
    an integral float64 within range is that integer.  Values out of range,
    infinities and NaN (which no quotient of a converted [int64] by twelve
    produces) convert to [MinInt64], as on amd64. *)
Definition int64_of_Ceil (x : float64) : Z :=
  match x with
  | S754_zero _ => 0
  | S754_finite s m e =>
      let v := if s then Z.neg m else Z.pos m in
      let c := if 0 <=? e then v * 2 ^ e else - ((- v) / 2 ^ (- e)) in
      if (MinInt64 <=? c) && (c <=? MaxInt64) then c else MinInt64
  | S754_infinity _ | S754_nan => MinInt64
  end.

End GoNum.

Import GoString GoNum.

(** ** Entity model *)

Module Entity.

Definition PageSize : Z := 12.

(** [time.Time], as an instant on a linear clock. *)
Definition Time : Type := Z.

Record Tag := {
  Tag_ID : Z;
  Tag_Name : str
}.

Record Photo := {
  ID : Z;
  OwnerID : Z;
  CreatedAt : Time;
  Title : str;
  Filename : str;
  Tags : list str;
  UpVotes : Z;
  DownVotes : Z
}.

(** [&Photo{}]. *)
Definition zeroPhoto : Photo :=
  {| ID := 0; OwnerID := 0; CreatedAt := 0; Title := []; Filename := [];
     Tags := []; UpVotes := 0; DownVotes := 0 |}.

Definition withID (p : Photo) (id : Z) : Photo :=
  {| ID := id; OwnerID := OwnerID p; CreatedAt := CreatedAt p;
     Title := Title p; Filename := Filename p; Tags := Tags p;
     UpVotes := UpVotes p; DownVotes := DownVotes p |}.

Definition withCreatedAt (p : Photo) (t : Time) : Photo :=
  {| ID := ID p; OwnerID := OwnerID p; CreatedAt := t;
     Title := Title p; Filename := Filename p; Tags := Tags p;
     UpVotes := UpVotes p; DownVotes := DownVotes p |}.

Definition withTags (p : Photo) (ts : list str) : Photo :=
  {| ID := ID p; OwnerID := OwnerID p; CreatedAt := CreatedAt p;
     Title := Title p; Filename := Filename p; Tags := ts;
     UpVotes := UpVotes p; DownVotes := DownVotes p |}.

(** Modelled from the spec: the caller identity [User], whose declaration
    is not in [src/]: it exposes [ID], [IsAuthenticated], [IsAdmin] and
    [HasVoted(photoID) -> bool]. *)
Record User := {
  User_ID : Z;
  IsAuthenticated : bool;
  IsAdmin : bool;
  HasVoted : Z -> bool
}.

Record Permissions := {
  Edit : bool;
  Delete : bool;
  Vote : bool
}.

Record PhotoDetail := {
  Detail_Photo : Photo;
  OwnerName : str;
  Detail_Permissions : option Permissions
}.

Record PhotoList := {
  Photos : list Photo;
  Total : Z;
  CurrentPage : Z;
  NumPages : Z
}.

Fixpoint strs_eqb (a b : list str) : bool :=
  match a, b with
  | [], [] => true
  | x :: a', y :: b' => str_eqb x y && strs_eqb a' b'
  | _, _ => false
  end.

(** Equality of two photo records, field by field. *)
Definition Photo_eqb (a b : Photo) : bool :=
  (ID a =? ID b) && (OwnerID a =? OwnerID b) && (CreatedAt a =? CreatedAt b)
  && str_eqb (Title a) (Title b) && str_eqb (Filename a) (Filename b)
  && strs_eqb (Tags a) (Tags b)
  && (UpVotes a =? UpVotes b) && (DownVotes a =? DownVotes b).

End Entity.

Import Entity.

(** ** The relational store: tables and the SQL the catalog sends *)

Module Sql.

Inductive error :=
| ErrNoRows                  (* [sql.ErrNoRows] *)
| PqError (msg : string).    (* an error reported by the database *)

(** A query parameter. *)
Inductive Value :=
| VInt (n : Z)
| VStr (s : str).

Record UserRow := {
  u_id : Z;
  u_name : str
}.

(** The persisted layout: [photos] (whose rows carry no tags, the field
    [Tags] is not a column), [users], [tags], the association [photo_tags]
    (photo id, tag id), and the two key sequences.  The order of a list is
    the order in which a scan of the table meets the rows. *)
Record DB := {
  photos : list Photo;
  users : list UserRow;
  tags : list Tag;
  photo_tags : list (Z * Z);
  photos_id_seq : Z;
  tags_id_seq : Z
}.

(** *** Text *)

(** SQL [UPPER]. *)
Definition UPPER (s : str) : str := map upperChar s.

(** SQL [s LIKE pat] with the default escape character: [%] matches any
    run of characters, [_] any one character, a backslash makes the next
    character literal.  A pattern that ends in a lone backslash is an error
    in PostgreSQL; it matches nothing here, and no pattern built by
    [Search] ends so, since they all end in [%]. *)
Fixpoint like (pat : str) : str -> bool :=
  match pat with
  | [] => isEmpty
  | c :: pat' =>
      if Ascii.eqb c "%" then
        fix any (s : str) : bool :=
          like pat' s || match s with [] => false | _ :: s' => any s' end
      else if Ascii.eqb c "_" then
        fun s => match s with [] => false | _ :: s' => like pat' s' end
      else if Ascii.eqb c "\" then
        match pat' with
        | [] => fun _ => false
        | e :: pat'' =>
            fun s => match s with
                     | [] => false
                     | x :: s' => Ascii.eqb x e && like pat'' s'
                     end
        end
      else
        fun s => match s with
                 | [] => false
                 | x :: s' => Ascii.eqb x c && like pat' s'
                 end
  end.

Definition digitVal (c : ascii) : option Z :=
  let n := N_of_ascii c in
  if ((48 <=? n) && (n <=? 57))%N then Some (Z.of_N n - 48) else None.

Fixpoint digitsVal (acc : Z) (s : str) : option Z :=
  match s with
  | [] => Some acc
  | c :: r =>
      match digitVal c with
      | Some d => digitsVal (acc * 10 + d) r
      | None => None
      end
  end.

(** The conversion of a text parameter to [bigint]: blanks around an
    optional sign and at least one decimal digit, within range. *)
Definition int8in (s : str) : option Z :=
  let t := TrimSpace s in
  let '(neg, ds) :=
    match t with
    | c :: r =>
        if Ascii.eqb c "-" then (true, r)
        else if Ascii.eqb c "+" then (false, r)
        else (false, t)
    | [] => (false, t)
    end in
  match ds with
  | [] => None
  | _ :: _ =>
      match digitsVal 0 ds with
      | Some n =>
          let v := if neg then - n else n in
          if (MinInt64 <=? v) && (v <=? MaxInt64) then Some v else None
      | None => None
      end
  end.

(** *** Statements *)

(** The SQL texts of [commands.go], by shape.  A placeholder [$n] is kept
    as its number [n]. *)
Inductive Statement :=
| DeletePhotoTags
    (* DELETE FROM photo_tags WHERE photo_id=$1 *)
| AddTags (args : list Z)
    (* SELECT add_tags(<args joined by ,>) *)
| CountPhotos
    (* SELECT COUNT(id) FROM photos *)
| PagePhotos (orderBy : str)
    (* SELECT * FROM photos ORDER BY <orderBy> DESC LIMIT $1 OFFSET $2 *)
| CountSearch (clauses : list Z)
    (* SELECT COUNT(id) FROM (<clauses joined by INTERSECT>) q *)
| PageSearch (clauses : list Z) (limit offset : Z)
    (* SELECT * FROM (<clauses joined by INTERSECT>) q
       ORDER BY (up_votes - down_votes) DESC, created_at DESC
       LIMIT $<limit> OFFSET $<offset> *)
| DetailByID
    (* SELECT p.*, u.name AS owner_name
       FROM photos p JOIN users u ON u.id = p.owner_id WHERE p.id=$1 *)
| TagsByPhoto.
    (* SELECT t.* FROM tags t JOIN photo_tags pt ON pt.tag_id=t.id
       WHERE pt.photo_id=$1 *)

Definition placeholders (sql : Statement) : list Z :=
  match sql with
  | DeletePhotoTags => [1]
  | AddTags args => args
  | CountPhotos => []
  | PagePhotos _ => [1; 2]
  | CountSearch clauses => clauses
  | PageSearch clauses limit offset => clauses ++ [limit; offset]
  | DetailByID => [1]
  | TagsByPhoto => [1]
  end.

(** The value bound to [$n]. *)
Definition bind (params : list Value) (n : Z) : option Value :=
  if n <? 1 then None else nth_error params (Z.to_nat (n - 1)).

(** A statement is accepted with [params] when its placeholders are
    exactly [$1] .. [$(len params)]. *)
Definition arityOK (used : list Z) (params : list Value) : bool :=
  forallb (fun n => (1 <=? n) && (n <=? Z.of_nat (List.length params))) used
  && forallb (fun i => existsb (Z.eqb (Z.of_nat i)) used)
       (seq 1 (List.length params)).

Fixpoint bindAll (params : list Value) (ns : list Z) : option (list Value) :=
  match ns with
  | [] => Some []
  | n :: ns' =>
      match bind params n, bindAll params ns' with
      | Some v, Some vs => Some (v :: vs)
      | _, _ => None
      end
  end.

Fixpoint texts (vs : list Value) : option (list str) :=
  match vs with
  | [] => Some []
  | VStr s :: vs' =>
      match texts vs' with Some ss => Some (s :: ss) | None => None end
  | VInt _ :: _ => None
  end.

(** *** Tag association *)

Definition deletePhotoTags (db : DB) (id : Z) : DB :=
  {| photos := photos db; users := users db; tags := tags db;
     photo_tags := filter (fun pt => negb (fst pt =? id)) (photo_tags db);
     photos_id_seq := photos_id_seq db; tags_id_seq := tags_id_seq db |}.

Definition findTag (name : str) (ts : list Tag) : option Z :=
  option_map Tag_ID (find (fun t => str_eqb (Tag_Name t) name) ts).

(** Modelled from the spec: the stored procedure [add_tags], which is not
    in [src/]: "upserting Tag rows by name and rewriting the association
    set atomically (create any missing Tag, remove associations no longer
    present, add new ones)". *)
Fixpoint upsertTags (names : list str) (ts : list Tag) (next : Z)
  : list Z * list Tag * Z :=
  match names with
  | [] => ([], ts, next)
  | name :: names' =>
      match findTag name ts with
      | Some id =>
          let '(ids, ts', next') := upsertTags names' ts next in
          (id :: ids, ts', next')
      | None =>
          let id := next + 1 in
          let '(ids, ts', next') :=
            upsertTags names' (ts ++ [{| Tag_ID := id; Tag_Name := name |}]) id in
          (id :: ids, ts', next')
      end
  end.

Fixpoint nodupZ (l : list Z) : list Z :=
  match l with
  | [] => []
  | x :: r => x :: filter (fun y => negb (x =? y)) (nodupZ r)
  end.

Definition add_tags (db : DB) (id : Z) (names : list str) : DB :=
  let '(ids, ts, next) := upsertTags names (tags db) (tags_id_seq db) in
  {| photos := photos db; users := users db; tags := ts;
     photo_tags :=
       filter (fun pt => negb (fst pt =? id)) (photo_tags db)
       ++ map (fun t => (id, t)) (nodupZ ids);
     photos_id_seq := photos_id_seq db; tags_id_seq := next |}.

(** What a statement run through [Exec] does to the tables. *)
Definition execute (db : DB) (sql : Statement) (params : list Value)
  : string + DB :=
  if negb (arityOK (placeholders sql) params) then
    inl "bind: the parameters supplied do not match the placeholders"%string
  else
    match sql with
    | DeletePhotoTags =>
        match bind params 1 with
        | Some (VInt id) => inr (deletePhotoTags db id)
        | _ => inl "invalid input for photo_id"%string
        end
    | AddTags args =>
        match bindAll params args with
        | Some (VInt id :: vs) =>
            match texts vs with
            | Some names => inr (add_tags db id names)
            | None => inl "add_tags: tag names are text"%string
            end
        | _ => inl "add_tags: the first argument is a photo id"%string
        end
    | _ => inr db
    end.

(** *** Queries *)

Inductive OrderKey := ByVotes | ByCreatedAt.

Definition keyOf (k : OrderKey) (p : Photo) : Z :=
  match k with
  | ByVotes => UpVotes p - DownVotes p
  | ByCreatedAt => CreatedAt p
  end.

(** The two expressions [All] puts after [ORDER BY]. *)
Definition parseOrderBy (s : str) : option (list OrderKey) :=
  if str_eqb s (lit "(up_votes - down_votes)") then Some [ByVotes]
  else if str_eqb s (lit "created_at") then Some [ByCreatedAt]
  else None.

(** [keysLt ks a b]: under [ORDER BY ks DESC], [a] comes strictly after
    [b]. *)
Fixpoint keysLt (ks : list OrderKey) (a b : Photo) : bool :=
  match ks with
  | [] => false
  | k :: ks' =>
      (keyOf k a <? keyOf k b)
      || ((keyOf k a =? keyOf k b) && keysLt ks' a b)
  end.

Fixpoint insertDesc (ks : list OrderKey) (x : Photo) (l : list Photo)
  : list Photo :=
  match l with
  | [] => [x]
  | y :: l' => if keysLt ks x y then y :: insertDesc ks x l' else x :: l
  end.

(** [ORDER BY ks DESC].  SQL leaves the order among rows whose keys are
    equal unspecified; here they keep the order of the scan, which is any
    order the table may have. *)
Definition orderByDesc (ks : list OrderKey) (rows : list Photo) : list Photo :=
  fold_right (insertDesc ks) [] rows.

(** [LIMIT limit OFFSET offset]; a negative one is an error. *)
Definition limitOffset (limit offset : Z) (rows : list Photo)
  : option (list Photo) :=
  if (limit <? 0) || (offset <? 0) then None
  else Some (firstn (Z.to_nat limit) (skipn (Z.to_nat offset) rows)).

(** [DISTINCT]. *)
Fixpoint distinct (rows : list Photo) : list Photo :=
  match rows with
  | [] => []
  | p :: r => p :: filter (fun q => negb (Photo_eqb p q)) (distinct r)
  end.

(** [a INTERSECT b], for [a] without duplicates. *)
Definition intersect (a b : list Photo) : list Photo :=
  filter (fun p => existsb (Photo_eqb p) b) a.

(** The [WHERE] of one search clause on the rows joined to photo [p]:
    [UPPER(p.title) LIKE UPPER(pat) OR UPPER(u.name) LIKE UPPER(pat)
     OR t.name LIKE pat], over the inner join with [users] and the left
    joins with [photo_tags] and [tags]. *)
Definition clauseMatch (db : DB) (pat : str) (p : Photo) : bool :=
  existsb (fun u =>
    (u_id u =? OwnerID p)
    && (like (UPPER pat) (UPPER (Title p))
        || like (UPPER pat) (UPPER (u_name u))
        || existsb (fun pt =>
             (fst pt =? ID p)
             && existsb (fun t => (Tag_ID t =? snd pt) && like pat (Tag_Name t))
                  (tags db))
             (photo_tags db)))
    (users db).

(** [SELECT DISTINCT p.* FROM photos p ... WHERE ...]. *)
Definition clauseRows (db : DB) (pat : str) : list Photo :=
  distinct (filter (clauseMatch db pat) (photos db)).

(** The clauses joined by [INTERSECT]; with no clause the text is
    [FROM () q], a syntax error. *)
Definition searchRows (db : DB) (clauses : list Z) (params : list Value)
  : string + list Photo :=
  match bindAll params clauses with
  | Some vs =>
      match texts vs with
      | Some (pat :: pats) =>
          inr (fold_left (fun acc pt => intersect acc (clauseRows db pt))
                 pats (clauseRows db pat))
      | Some [] => inl "syntax error at or near )"%string
      | None => inl "LIKE: the pattern is text"%string
      end
  | None => inl "there is no such parameter"%string
  end.

Definition arityError : string :=
  "bind: the parameters supplied do not match the placeholders"%string.

(** A query that yields one integer. *)
Definition queryInt (db : DB) (sql : Statement) (params : list Value)
  : string + Z :=
  if negb (arityOK (placeholders sql) params) then inl arityError
  else
    match sql with
    | CountPhotos => inr (Z.of_nat (List.length (photos db)))
    | CountSearch clauses =>
        match searchRows db clauses params with
        | inr rows => inr (Z.of_nat (List.length rows))
        | inl msg => inl msg
        end
    | _ => inl "the query does not yield one integer"%string
    end.

(** A query that yields photo rows. *)
Definition queryPhotos (db : DB) (sql : Statement) (params : list Value)
  : string + list Photo :=
  if negb (arityOK (placeholders sql) params) then inl arityError
  else
    match sql with
    | PagePhotos orderBy =>
        match parseOrderBy orderBy, bind params 1, bind params 2 with
        | Some ks, Some (VInt limit), Some (VInt offset) =>
            match limitOffset limit offset (orderByDesc ks (photos db)) with
            | Some rows => inr rows
            | None => inl "LIMIT and OFFSET must not be negative"%string
            end
        | _, _, _ => inl "syntax error or invalid input"%string
        end
    | PageSearch clauses limit offset =>
        match searchRows db clauses params,
              bind params limit, bind params offset with
        | inr rows, Some (VInt l), Some (VInt o) =>
            match limitOffset l o (orderByDesc [ByVotes; ByCreatedAt] rows) with
            | Some page => inr page
            | None => inl "LIMIT and OFFSET must not be negative"%string
            end
        | inl msg, _, _ => inl msg
        | _, _, _ => inl "invalid input for LIMIT or OFFSET"%string
        end
    | _ => inl "the query does not yield photo rows"%string
    end.

(** The key a parameter denotes where a [bigint] is expected. *)
Definition keyOfValue (v : Value) : option Z :=
  match v with
  | VInt n => Some n
  | VStr s => int8in s
  end.

(** [TagsByPhoto]. *)
Definition queryTags (db : DB) (id : Z) : list Tag :=
  flat_map (fun t =>
    map (fun _ => t)
        (filter (fun pt => (snd pt =? Tag_ID t) && (fst pt =? id))
                (photo_tags db)))
    (tags db).

(** [DetailByID]: the photo rows with that id, each joined to its owner's
    name. *)
Definition queryDetail (db : DB) (id : Z) : list (Photo * str) :=
  flat_map (fun p =>
    map (fun u => (p, u_name u))
        (filter (fun u => u_id u =? OwnerID p) (users db)))
    (filter (fun p => ID p =? id) (photos db)).

(** The row of [photos] with primary key [id]. *)
Definition lookupPhoto (db : DB) (id : Z) : option Photo :=
  find (fun p => ID p =? id) (photos db).

(** [INSERT INTO photos ... RETURNING id]: the key comes from the
    sequence, the tags are not a column. *)
Definition insertPhoto (db : DB) (p : Photo) : Z * DB :=
  let id := photos_id_seq db + 1 in
  (id,
   {| photos := photos db ++ [withTags (withID p id) []];
      users := users db; tags := tags db; photo_tags := photo_tags db;
      photos_id_seq := id; tags_id_seq := tags_id_seq db |}).

End Sql.

Import Sql.

(** ** gorp's [dbMap]

    Every call goes to the database at once and on its own: only the
    methods of a [Transaction] run inside that transaction, and
    [commands.go] calls none of them besides [Commit]. *)

Inductive Call :=
| CallBegin | CallCommit | CallInsert | CallExec
| CallGet | CallSelectOne | CallSelect | CallSelectInt.

(** The store as the catalog sees it: the tables, the clock that
    [time.Now] reads, and the calls that fail (connectivity and the like),
    each with the message of its error. *)
Record Store := {
  tables : DB;
  clock : Time;
  faults : Call -> option string
}.

Definition setTables (st : Store) (db : DB) : Store :=
  {| tables := db; clock := clock st; faults := faults st |}.

Definition failure (st : Store) (c : Call) : option error :=
  option_map PqError (faults st c).

(** [time.Now()]. *)
Definition Now (st : Store) : Time * Store :=
  (clock st,
   {| tables := tables st; clock := clock st + 1; faults := faults st |}).

(** A transaction holds the statements run through it until [Commit]. *)
Record Transaction := {
  pending : list (Statement * list Value)
}.

Definition dbMap_Begin (st : Store) : error + Transaction :=
  match failure st CallBegin with
  | Some e => inl e
  | None => inr {| pending := [] |}
  end.

Fixpoint executeAll (db : DB) (l : list (Statement * list Value))
  : string + DB :=
  match l with
  | [] => inr db
  | (sql, params) :: l' =>
      match execute db sql params with
      | inr db' => executeAll db' l'
      | inl msg => inl msg
      end
  end.

Definition Commit (t : Transaction) (st : Store) : option error * Store :=
  match failure st CallCommit with
  | Some e => (Some e, st)
  | None =>
      match executeAll (tables st) (pending t) with
      | inr db => (None, setTables st db)
      | inl msg => (Some (PqError msg), st)
      end
  end.

Definition dbMap_Exec (st : Store) (sql : Statement) (params : list Value)
  : option error * Store :=
  match failure st CallExec with
  | Some e => (Some e, st)
  | None =>
      match execute (tables st) sql params with
      | inr db => (None, setTables st db)
      | inl msg => (Some (PqError msg), st)
      end
  end.

(** [dbMap.Get(holder, key)]: the row with that primary key, [nil] when
    there is none. *)
Definition dbMap_Get (st : Store) (key : Value) : option Photo * option error :=
  match failure st CallGet with
  | Some e => (None, Some e)
  | None =>
      match keyOfValue key with
      | Some id => (lookupPhoto (tables st) id, None)
      | None => (None, Some (PqError "invalid input syntax for type bigint"))
      end
  end.

(** [dbMap.SelectOne]: exactly one row, [sql.ErrNoRows] when there is
    none. *)
Definition dbMap_SelectOne (st : Store) (sql : Statement) (params : list Value)
  : error + (Photo * str) :=
  match failure st CallSelectOne with
  | Some e => inl e
  | None =>
      if negb (arityOK (placeholders sql) params) then inl (PqError arityError)
      else
        match sql, option_map keyOfValue (bind params 1) with
        | DetailByID, Some (Some id) =>
            match queryDetail (tables st) id with
            | [] => inl ErrNoRows
            | [row] => inr row
            | _ :: _ :: _ => inl (PqError "multiple rows returned")
            end
        | DetailByID, _ => inl (PqError "invalid input syntax for type bigint")
        | _, _ => inl (PqError "the query does not yield a photo detail")
        end
  end.

(** [dbMap.Select] into a slice of [Tag]. *)
Definition dbMap_SelectTags (st : Store) (sql : Statement) (params : list Value)
  : list Tag * option error :=
  match failure st CallSelect with
  | Some e => ([], Some e)
  | None =>
      if negb (arityOK (placeholders sql) params) then ([], Some (PqError arityError))
      else
        match sql, option_map keyOfValue (bind params 1) with
        | TagsByPhoto, Some (Some id) => (queryTags (tables st) id, None)
        | _, _ => ([], Some (PqError "invalid input"))
        end
  end.

(** [dbMap.Select] into a slice of [Photo]. *)
Definition dbMap_Select (st : Store) (sql : Statement) (params : list Value)
  : list Photo * option error :=
  match failure st CallSelect with
  | Some e => ([], Some e)
  | None =>
      match queryPhotos (tables st) sql params with
      | inr rows => (rows, None)
      | inl msg => ([], Some (PqError msg))
      end
  end.

Definition dbMap_SelectInt (st : Store) (sql : Statement) (params : list Value)
  : Z * option error :=
  match failure st CallSelectInt with
  | Some e => (0, Some e)
  | None =>
      match queryInt (tables st) sql params with
      | inr n => (n, None)
      | inl msg => (0, Some (PqError msg))
      end
  end.

(** The hook gorp runs before the [INSERT]. *)
Definition PreInsert (photo : Photo) (st : Store) : Photo * Store :=
  let '(t, st) := Now st in
  (withCreatedAt photo t, st).

(** [dbMap.Insert(photo)]: the hook, then the row, whose generated key is
    written back to [photo.ID]. *)
Definition dbMap_Insert (st : Store) (photo : Photo)
  : Photo * option error * Store :=
  let '(photo, st) := PreInsert photo st in
  match failure st CallInsert with
  | Some e => (photo, Some e, st)
  | None =>
      let '(id, db) := insertPhoto (tables st) photo in
      (withID photo id, None, setTables st db)
  end.

(** ** The photo manager *)

Definition NewPhotoList (photos : list Photo) (total : Z) (page : Z) : PhotoList :=
  let numPages :=
    int64_of_Ceil (fdiv (float64_of_int64 total) (float64_of_int64 PageSize)) in
  {| Photos := photos; Total := total; CurrentPage := page; NumPages := numPages |}.

Definition getOffset (pageNum : Z) : Z :=
  mul64 (sub64 pageNum 1) PageSize.

Definition CanEdit (photo : Photo) (user : option User) : bool :=
  match user with
  | None => false
  | Some u =>
      if negb (IsAuthenticated u) then false
      else IsAdmin u || (OwnerID photo =? User_ID u)
  end.

Definition CanDelete (photo : Photo) (user : option User) : bool :=
  CanEdit photo user.

Definition CanVote (photo : Photo) (user : option User) : bool :=
  match user with
  | None => false
  | Some u =>
      if negb (IsAuthenticated u) then false
      else if OwnerID photo =? User_ID u then false
      else negb (HasVoted u (ID photo))
  end.

(** The loop of [UpdateTags] over [photo.Tags], from index [i]. *)
Fixpoint tagLoop (i : Z) (names : list str)
  (args : list Z) (params : list Value) (isEmptyTags : bool)
  : list Z * list Value * bool :=
  match names with
  | [] => (args, params, isEmptyTags)
  | name :: rest =>
      let name := TrimSpace name in
      if negb (isEmpty name) then
        tagLoop (i + 1) rest (args ++ [i + 2])
          (params ++ [VStr (ToLower name)]) false
      else tagLoop (i + 1) rest args params isEmptyTags
  end.

(** The statement [UpdateTags] hands to [dbMap.Exec], with its
    parameters: the [DELETE] when no name was kept and the photo has an ID,
    [SELECT add_tags(...)] otherwise. *)
Definition tagStatement (photo : Photo) : Statement * list Value :=
  let '(args, params, isEmptyTags) :=
    tagLoop 0 (Tags photo) [1] [VInt (ID photo)] true in
  if isEmptyTags && negb (ID photo =? 0) then
    (DeletePhotoTags, [VInt (ID photo)])
  else
    (AddTags args, params).

(** [UpdateTags]: the loop, then the one call of [dbMap.Exec] that the
    test of [isEmpty] and of the ID chooses. *)
Definition UpdateTags (photo : Photo) (st : Store) : option error * Store :=
  let '(sql, params) := tagStatement photo in
  dbMap_Exec st sql params.

Definition Insert (photo : Photo) (st : Store) : Photo * option error * Store :=
  match dbMap_Begin st with
  | inl err => (photo, Some err, st)
  | inr t =>
      match dbMap_Insert st photo with
      | (photo, Some err, st) => (photo, Some err, st)
      | (photo, None, st) =>
          match UpdateTags photo st with
          | (Some err, st) => (photo, Some err, st)
          | (None, st) =>
              let '(err, st) := Commit t st in
              (photo, err, st)
          end
      end
  end.

Definition Get (photoID : str) (st : Store) : option Photo * option error :=
  let photo := zeroPhoto in
  match dbMap_Get st (VStr photoID) with
  | (_, Some err) => (Some photo, Some err)
  | (None, None) => (None, None)
  | (Some obj, None) => (Some obj, None)
  end.

Definition GetDetail (photoID : str) (user : option User) (st : Store)
  : option PhotoDetail * option error :=
  match dbMap_SelectOne st DetailByID [VStr photoID] with
  | inl ErrNoRows => (None, None)
  | inl err => (None, Some err)
  | inr (row, ownerName) =>
      let photo :=
        {| Detail_Photo := row; OwnerName := ownerName;
           Detail_Permissions := None |} in
      match dbMap_SelectTags st TagsByPhoto [VInt (ID row)] with
      | (_, Some err) => (Some photo, Some err)
      | (tags, None) =>
          let p := withTags row (Tags row ++ map Tag_Name tags) in
          (Some {| Detail_Photo := p; OwnerName := ownerName;
                   Detail_Permissions :=
                     Some {| Edit := CanEdit p user;
                             Delete := CanDelete p user;
                             Vote := CanVote p user |} |},
           None)
      end
  end.

(** The loop of [Search] over the pieces of the query, from index [num]. *)
Fixpoint searchLoop (num : Z) (words : list str)
  (clauses : list Z) (params : list Value) : list Z * list Value :=
  match words with
  | [] => (clauses, params)
  | word :: rest =>
      let word := TrimSpace word in
      if isEmpty word || (6 <? num) then (clauses, params)
      else
        let word := lit "%" ++ word ++ lit "%" in
        searchLoop (num + 1) rest (clauses ++ [num + 1]) (params ++ [VStr word])
  end.

Definition Search (pageNum : Z) (q : str) (st : Store)
  : option PhotoList * option error :=
  if isEmpty q then (None, None)
  else
    let '(clauses, params) := searchLoop 0 (SplitSpace q) [] [] in
    match dbMap_SelectInt st (CountSearch clauses) params with
    | (_, Some err) => (None, Some err)
    | (total, None) =>
        let numParams := Z.of_nat (List.length params) in
        let sql := PageSearch clauses (numParams + 1) (numParams + 2) in
        let params := params ++ [VInt PageSize; VInt (getOffset pageNum)] in
        match dbMap_Select st sql params with
        | (_, Some err) => (None, Some err)
        | (photos, None) => (Some (NewPhotoList photos total pageNum), None)
        end
    end.

Definition All (pageNum : Z) (orderBy : str) (st : Store)
  : option PhotoList * option error :=
  let orderBy :=
    if str_eqb orderBy (lit "votes") then lit "(up_votes - down_votes)"
    else lit "created_at" in
  match dbMap_SelectInt st CountPhotos [] with
  | (_, Some err) => (None, Some err)
  | (total, None) =>
      match dbMap_Select st (PagePhotos orderBy)
              [VInt PageSize; VInt (getOffset pageNum)] with
      | (_, Some err) => (None, Some err)
      | (photos, None) => (Some (NewPhotoList photos total pageNum), None)
      end
  end.

(** ** Notions the properties are stated with *)

(** The normalized tag list of [UpdateTags]: trimmed, the empty names
    dropped, lower case. *)
Definition normalizeTags (names : list str) : list str :=
  map ToLower (filter (fun n => negb (isEmpty n)) (map TrimSpace names)).

Fixpoint untilBlank (ws : list str) : list str :=
  match ws with
  | [] => []
  | w :: r => if isEmpty w then [] else w :: untilBlank r
  end.

(** The tokens of a query that [Search] keeps. *)
Definition searchTokens (q : str) : list str :=
  untilBlank (firstn 7 (map TrimSpace (SplitSpace q))).

(** The pattern [Search] makes of a token. *)
Definition pattern (w : str) : str := lit "%" ++ w ++ lit "%".

(** The placeholders [$(num+1)], [$(num+2)], ... one for each element. *)
Fixpoint numbered {A : Type} (num : Z) (l : list A) : list Z :=
  match l with
  | [] => []
  | _ :: r => (num + 1) :: numbered (num + 1) r
  end.

Definition noSpace (s : str) : Prop := ~ In space s.

(** [w] occurs in [s]. *)
Definition substring (w s : str) : Prop :=
  exists pre post, s = pre ++ w ++ post.

(** [w] occurs in [s], letter case ignored. *)
Definition containsFold (w s : str) : Prop :=
  substring (UPPER w) (UPPER s).

Definition lowercase (s : str) : Prop := ToLower s = s.

Definition isMeta (c : ascii) : bool :=
  Ascii.eqb c "%" || Ascii.eqb c "_" || Ascii.eqb c "\".

(** No character of [w] is special in a [LIKE] pattern. *)
Definition plain (w : str) : Prop := forallb (fun c => negb (isMeta c)) w = true.

Definition ownerNamed (db : DB) (p : Photo) (name : str) : Prop :=
  exists u, In u (users db) /\ u_id u = OwnerID p /\ u_name u = name.

Definition taggedWith (db : DB) (p : Photo) (name : str) : Prop :=
  exists t, In t (tags db) /\ In (ID p, Tag_ID t) (photo_tags db)
            /\ Tag_Name t = name.

(** Token [w] is found in [p]: the owner of [p] has a row in [users] (every
    clause of [Search] joins [users]), and [w] occurs in the title of [p], in
    the name of that owner or in the name of one of the tags of [p]. *)
Definition tokenFound (db : DB) (w : str) (p : Photo) : Prop :=
  exists owner, ownerNamed db p owner
    /\ (containsFold w (Title p) \/ containsFold w owner
        \/ exists name, taggedWith db p name /\ containsFold w name).

(** The owner of [p] has a row in [users]. *)
Definition hasOwner (db : DB) (p : Photo) : Prop :=
  exists u, In u (users db) /\ u_id u = OwnerID p.

(** The text the searches compare is ASCII: the titles, the names of the
    users and the names of the tags.  [UPPER] and [LIKE] are modelled on such
    text. *)
Definition asciiTables (db : DB) : bool :=
  forallb (fun p => isASCII (Title p)) (photos db)
  && forallb (fun u => isASCII (u_name u)) (users db)
  && forallb (fun t => isASCII (Tag_Name t)) (tags db).

(** The rows that satisfy the clause of every token: the clauses of
    [Search] joined by [INTERSECT]. *)
Definition searchSet (db : DB) (toks : list str) : list Photo :=
  match map pattern toks with
  | [] => []
  | pat :: pats =>
      fold_left (fun acc pt => intersect acc (clauseRows db pt)) pats
        (clauseRows db pat)
  end.

(** The caller is signed in. *)
Definition authenticated (user : option User) (u : User) : Prop :=
  user = Some u /\ IsAuthenticated u = true.

(** The permissions [GetDetail] derives for a photo and a caller. *)
Definition permissionsFor (photo : Photo) (user : option User) : Permissions :=
  {| Edit := CanEdit photo user;
     Delete := CanDelete photo user;
     Vote := CanVote photo user |}.

(** [rows] are in the order [ORDER BY ks DESC] asks for. *)
Definition orderedDesc (ks : list OrderKey) (rows : list Photo) : Prop :=
  StronglySorted (fun a b => keysLt ks a b = false) rows.

(** Stores and photos the properties are tried on. *)
Module Sample.

Definition photo (id owner : Z) (created : Time) (title : string) (up down : Z)
  : Photo :=
  {| ID := id; OwnerID := owner; CreatedAt := created; Title := lit title;
     Filename := lit "f.jpg"; Tags := []; UpVotes := up; DownVotes := down |}.

Definition db : DB :=
  {| photos := [photo 1 10 100 "Red Sunset" 0 0; photo 2 10 200 "abcdef" 0 0];
     users := [{| u_id := 10; u_name := lit "Dana" |};
               {| u_id := 11; u_name := lit "Root" |}];
     tags := [{| Tag_ID := 1; Tag_Name := lit "beach" |}];
     photo_tags := [(1, 1)];
     photos_id_seq := 2; tags_id_seq := 1 |}.

Definition store : Store :=
  {| tables := db; clock := 1000; faults := fun _ => None |}.

(** The same store with every [dbMap.Exec] failing. *)
Definition storeExecDown : Store :=
  {| tables := db; clock := 1000;
     faults := fun c => match c with
                        | CallExec => Some "connection reset"%string
                        | _ => None
                        end |}.

Definition dana : User :=
  {| User_ID := 10; IsAuthenticated := true; IsAdmin := false;
     HasVoted := fun _ => false |}.

Definition root : User :=
  {| User_ID := 11; IsAuthenticated := true; IsAdmin := true;
     HasVoted := fun id => id =? 2 |}.

(** A photo whose first tag is blank. *)
Definition upload : Photo :=
  withTags (photo 0 10 0 "New" 0 0) [lit ""; lit "Beach"].

End Sample.

(** ** The rest of the photo manager *)

(** [DELETE FROM photos WHERE id=$1], with the number of rows it removes.
    What the schema does to the associations of the photo is not in
    [commands.go]; the statement itself names [photos] only. *)
Definition deletePhoto (db : DB) (id : Z) : Z * DB :=
  (Z.of_nat (List.length (filter (fun p => ID p =? id) (photos db))),
   {| photos := filter (fun p => negb (ID p =? id)) (photos db);
      users := users db; tags := tags db; photo_tags := photo_tags db;
      photos_id_seq := photos_id_seq db; tags_id_seq := tags_id_seq db |}).

(** [UPDATE photos SET owner_id=.., created_at=.., title=.., photo=..,
    up_votes=.., down_votes=.. WHERE id=..]: every column but the key is
    written from [p]; the tags are not a column. *)
Definition updatePhoto (db : DB) (p : Photo) : Z * DB :=
  (Z.of_nat (List.length (filter (fun r => ID r =? ID p) (photos db))),
   {| photos := map (fun r => if ID r =? ID p then withTags p [] else r)
                    (photos db);
      users := users db; tags := tags db; photo_tags := photo_tags db;
      photos_id_seq := photos_id_seq db; tags_id_seq := tags_id_seq db |}).

(** The hook gorp runs before the [DELETE]:
    [go photoCleaner.Clean(photo.Filename)].  The tasks a call launches are
    returned beside its result, each as the file name it is to clean; what
    the task does, and when, is outside the catalog. *)
Definition PreDelete (photo : Photo) : list str * option error :=
  ([Filename photo], None).

(** [dbMap.Delete(photo)]: the hook, then the statement, which gorp runs
    through [Exec]. *)
Definition dbMap_Delete (st : Store) (photo : Photo)
  : Z * option error * Store * list str :=
  match PreDelete photo with
  | (cleaning, Some e) => (0, Some e, st, cleaning)
  | (cleaning, None) =>
      match failure st CallExec with
      | Some e => (0, Some e, st, cleaning)
      | None =>
          let '(count, db) := deletePhoto (tables st) (ID photo) in
          (count, None, setTables st db, cleaning)
      end
  end.

(** [dbMap.Update(photo)]; the statement runs through [Exec]. *)
Definition dbMap_Update (st : Store) (photo : Photo)
  : Z * option error * Store :=
  match failure st CallExec with
  | Some e => (0, Some e, st)
  | None =>
      let '(count, db) := updatePhoto (tables st) photo in
      (count, None, setTables st db)
  end.

(** [defaultPhotoManager.Delete] (the name [Delete] is the field of
    [Permissions]); it returns its error, the store, and the cleaning tasks
    it has launched. *)
Definition PhotoManager_Delete (photo : Photo) (st : Store)
  : option error * Store * list str :=
  match dbMap_Begin st with
  | inl err => (Some err, st, [])
  | inr t =>
      match dbMap_Delete st photo with
      | (_, Some err, st, cleaning) => (Some err, st, cleaning)
      | (_, None, st, cleaning) =>
          let '(err, st) := Commit t st in
          (err, st, cleaning)
      end
  end.

Definition Update (photo : Photo) (st : Store) : option error * Store :=
  let '(_, err, st) := dbMap_Update st photo in
  (err, st).

(** The two statements of [ByOwnerID]. *)
Inductive OwnerStatement :=
| CountByOwner
    (* SELECT COUNT(id) FROM photos WHERE owner_id=$1 *)
| PageByOwner.
    (* SELECT * FROM photos WHERE owner_id = $1ORDER BY
       (up_votes - down_votes) DESC, created_at DESC LIMIT $2 OFFSET $3
       (the text has no blank between [$1] and [ORDER]; PostgreSQL up to
       version 14 reads the parameter and then the keyword) *)

Definition ownerPlaceholders (sql : OwnerStatement) : list Z :=
  match sql with
  | CountByOwner => [1]
  | PageByOwner => [1; 2; 3]
  end.

(** [WHERE owner_id = owner]. *)
Definition ownerRows (db : DB) (owner : Z) : list Photo :=
  filter (fun p => OwnerID p =? owner) (photos db).

Definition queryIntOwner (db : DB) (sql : OwnerStatement) (params : list Value)
  : string + Z :=
  if negb (arityOK (ownerPlaceholders sql) params) then inl arityError
  else
    match sql, option_map keyOfValue (bind params 1) with
    | CountByOwner, Some (Some owner) =>
        inr (Z.of_nat (List.length (ownerRows db owner)))
    | CountByOwner, _ => inl "invalid input syntax for type bigint"%string
    | PageByOwner, _ => inl "the query does not yield one integer"%string
    end.

Definition queryPhotosOwner (db : DB) (sql : OwnerStatement) (params : list Value)
  : string + list Photo :=
  if negb (arityOK (ownerPlaceholders sql) params) then inl arityError
  else
    match sql, option_map keyOfValue (bind params 1),
          bind params 2, bind params 3 with
    | PageByOwner, Some (Some owner), Some (VInt limit), Some (VInt offset) =>
        match limitOffset limit offset
                (orderByDesc [ByVotes; ByCreatedAt] (ownerRows db owner)) with
        | Some rows => inr rows
        | None => inl "LIMIT and OFFSET must not be negative"%string
        end
    | PageByOwner, _, _, _ => inl "invalid input"%string
    | CountByOwner, _, _, _ => inl "the query does not yield photo rows"%string
    end.

Definition dbMap_SelectIntOwner (st : Store) (sql : OwnerStatement)
  (params : list Value) : Z * option error :=
  match failure st CallSelectInt with
  | Some e => (0, Some e)
  | None =>
      match queryIntOwner (tables st) sql params with
      | inr n => (n, None)
      | inl msg => (0, Some (PqError msg))
      end
  end.

Definition dbMap_SelectOwner (st : Store) (sql : OwnerStatement)
  (params : list Value) : list Photo * option error :=
  match failure st CallSelect with
  | Some e => ([], Some e)
  | None =>
      match queryPhotosOwner (tables st) sql params with
      | inr rows => (rows, None)
      | inl msg => ([], Some (PqError msg))
      end
  end.

Definition ByOwnerID (pageNum : Z) (ownerID : str) (st : Store)
  : option PhotoList * option error :=
  match dbMap_SelectIntOwner st CountByOwner [VStr ownerID] with
  | (_, Some err) => (None, Some err)
  | (total, None) =>
      match dbMap_SelectOwner st PageByOwner
              [VStr ownerID; VInt PageSize; VInt (getOffset pageNum)] with
      | (_, Some err) => (None, Some err)
      | (photos, None) => (Some (NewPhotoList photos total pageNum), None)
      end
  end.

(** ** The import of a directory *)

(** [strings.Split(s, sep)] for a separator of one byte. *)
Fixpoint SplitChar (sep : ascii) (s : str) : list str :=
  match s with
  | [] => [[]]
  | c :: r =>
      if Ascii.eqb c sep then [] :: SplitChar sep r
      else match SplitChar sep r with
           | h :: t => (c :: h) :: t
           | [] => [[c]]
           end
  end.

(** The loop of [path.Ext], from the last byte backwards over the reversed
    name: the suffix from the last dot, nothing when a slash comes first or
    there is no dot. *)
Fixpoint extBackwards (reversed : str) (suffix : str) : str :=
  match reversed with
  | [] => []
  | c :: r =>
      if Ascii.eqb c "/" then []
      else if Ascii.eqb c "." then c :: suffix
      else extBackwards r (c :: suffix)
  end.

(** [path.Ext]. *)
Definition pathExt (name : str) : str := extBackwards (rev name) [].

(** What [scanDir] does with one entry that is not a directory. *)
Inductive Scanned :=
| ScanPanics                    (* slice bounds out of range *)
| ScanSkips                     (* [continue] *)
| ScanStores (title contentType : str) (tags : list str).
                                (* the arguments handed to [storeFile] *)

(** The branch of the loop of [scanDir] for an entry [name] of [dirname]
    that is not a directory, up to the call of [storeFile]: the tags from the
    directories below [baseDir], the test of the extension, the title and the
    content type. *)
Definition scanFile (baseDir dirname name : str) : Scanned :=
  if (List.length dirname <? List.length baseDir)%nat then ScanPanics
  else
    let tags :=
      SplitChar "/" (TrimSpace (skipn (List.length baseDir) dirname)) in
    let ext := ToLower (pathExt name) in
    if negb (str_eqb ext (lit ".jpg")) && negb (str_eqb ext (lit ".png"))
    then ScanSkips
    else
      let title := firstn (List.length name - 4) name in
      let contentType :=
        if str_eqb ext (lit ".jpg") then lit "image/jpeg"
        else lit "image/png" in
      ScanStores title contentType tags.

(** ** Notions of the further properties *)

(** The placeholders the loop of [UpdateTags] appends: [$(i+2)] for the
    name at index [i] when it is not blank. *)
Fixpoint tagPlaceholders (i : Z) (names : list str) : list Z :=
  match names with
  | [] => []
  | name :: rest =>
      if isEmpty (TrimSpace name) then tagPlaceholders (i + 1) rest
      else (i + 2) :: tagPlaceholders (i + 1) rest
  end.

(** The error of the store for a negative [OFFSET]. *)
Definition negativeOffset : error :=
  PqError "LIMIT and OFFSET must not be negative".

(** The error of the store for a search without clauses. *)
Definition noClause : error := PqError "syntax error at or near )".

(** The keys [All] orders by. *)
Definition keysOfAll (orderBy : str) : list OrderKey :=
  if str_eqb orderBy (lit "votes") then [ByVotes] else [ByCreatedAt].

(** The window of a page: twelve rows from the offset. *)
Definition pageOf (pageNum : Z) (rows : list Photo) : list Photo :=
  firstn 12 (skipn (Z.to_nat (getOffset pageNum)) rows).

(** A name that [UpdateTags] drops. *)
Definition blank (name : str) : Prop := TrimSpace name = [].

(** ** Proof steps *)

(** With [Hfin] telling how a rounded mantissa [mr] at exponent [e'] settles
    ([k] units of the original exponent each), name the resulting float and
    leave what is claimed of its value. *)
Ltac settle_rounding Hfin mr e' k :=
  let m := fresh "m" in
  let e := fresh "e" in
  destruct (Hfin mr e' k) as (m & e & -> & ?He & ?Hv); [lia | auto |];
  exists m, e; split; [reflexivity|]; split; [assumption|].

(** * Properties *)

(** ** Text and equality *)

Lemma str_eqb_eq (a b : str) : str_eqb a b = true <-> a = b.
Proof.
  revert b; induction a as [|x a IH]; intros [|y b]; simpl; try easy.
  rewrite andb_true_iff, Ascii.eqb_eq, IH.
  split; [intros [-> ->]; reflexivity | intros H; inversion H; auto].
Qed.

Lemma strs_eqb_eq (a b : list str) : strs_eqb a b = true <-> a = b.
Proof.
  revert b; induction a as [|x a IH]; intros [|y b]; simpl; try easy.
  rewrite andb_true_iff, str_eqb_eq, IH.
  split; [intros [-> ->]; reflexivity | intros H; inversion H; auto].
Qed.

Lemma Photo_eqb_eq (a b : Photo) : Photo_eqb a b = true <-> a = b.
Proof.
  unfold Photo_eqb; split.
  - rewrite !andb_true_iff, !Z.eqb_eq, !str_eqb_eq, strs_eqb_eq.
    destruct a, b; simpl; intuition (subst; reflexivity).
  - intros <-.
    rewrite !Z.eqb_refl; simpl.
    replace (str_eqb (Title a) (Title a)) with true
      by (symmetry; apply str_eqb_eq; reflexivity).
    replace (str_eqb (Filename a) (Filename a)) with true
      by (symmetry; apply str_eqb_eq; reflexivity).
    replace (strs_eqb (Tags a) (Tags a)) with true
      by (symmetry; apply strs_eqb_eq; reflexivity).
    reflexivity.
Qed.

Lemma isEmpty_true (s : str) : isEmpty s = true <-> s = [].
Proof. destruct s; simpl; split; congruence. Qed.

(** ** The tag synchronizer *)

(** The loop of [UpdateTags] appends the normalized names to the
    parameters and tells whether there was none. *)
Lemma tagLoop_params (names : list str) :
  forall i args params e,
    exists args',
      tagLoop i names args params e
      = (args', params ++ map VStr (normalizeTags names),
         e && match normalizeTags names with [] => true | _ :: _ => false end)
      /\ (normalizeTags names = [] -> args' = args).
Proof.
  unfold normalizeTags.
  induction names as [|n names IH]; intros i args params e; simpl.
  - exists args; rewrite app_nil_r, andb_true_r; auto.
  - destruct (isEmpty (TrimSpace n)) eqn:En; simpl.
    + apply IH.
    + destruct (IH (i + 1) (args ++ [i + 2])
                  (params ++ [VStr (ToLower (TrimSpace n))]) false)
        as (args' & -> & _).
      exists args'; rewrite <- app_assoc, andb_false_r; simpl.
      split; [reflexivity | discriminate].
Qed.

(** [UpdateTags] runs one of two statements. *)
Lemma UpdateTags_branches (photo : Photo) (st : Store) :
  UpdateTags photo st
  = let '(args, params, isEmptyTags) :=
      tagLoop 0 (Tags photo) [1] [VInt (ID photo)] true in
    if isEmptyTags && negb (ID photo =? 0) then
      dbMap_Exec st DeletePhotoTags [VInt (ID photo)]
    else
      dbMap_Exec st (AddTags args) params.
Proof.
  unfold UpdateTags, tagStatement.
  destruct (tagLoop 0 (Tags photo) [1] [VInt (ID photo)] true) as [[args params] e].
  destruct (e && negb (ID photo =? 0)); reflexivity.
Qed.

Lemma UpdateTags_nothing_to_add (photo : Photo) (st : Store) :
  normalizeTags (Tags photo) = [] ->
  UpdateTags photo st
  = if negb (ID photo =? 0) then dbMap_Exec st DeletePhotoTags [VInt (ID photo)]
    else dbMap_Exec st (AddTags [1]) [VInt (ID photo)].
Proof.
  intros Hn; rewrite UpdateTags_branches.
  destruct (tagLoop_params (Tags photo) 0 [1] [VInt (ID photo)] true)
    as (args' & -> & Hargs).
  rewrite (Hargs Hn), Hn; reflexivity.
Qed.

(** C9: for an existing photo whose normalized tag list is empty,
    [UpdateTags] runs the [DELETE] on [photo_tags]: when the store accepts it
    no association of that photo is left, the associations of every other
    photo are what they were, and no other table changes. *)
Theorem UpdateTags_clears_only_this_photo (photo : Photo) (st : Store) :
  ID photo <> 0 ->
  normalizeTags (Tags photo) = [] ->
  faults st CallExec = None ->
  exists st',
    UpdateTags photo st = (None, st')
    /\ (forall tag, ~ In (ID photo, tag) (photo_tags (tables st')))
    /\ (forall other tag, other <> ID photo ->
          (In (other, tag) (photo_tags (tables st'))
           <-> In (other, tag) (photo_tags (tables st))))
    /\ (forall other, other <> ID photo ->
          filter (fun pt => fst pt =? other) (photo_tags (tables st'))
          = filter (fun pt => fst pt =? other) (photo_tags (tables st)))
    /\ photos (tables st') = photos (tables st)
    /\ tags (tables st') = tags (tables st)
    /\ users (tables st') = users (tables st).
Proof.
  intros Hid Hn Hf.
  rewrite (UpdateTags_nothing_to_add photo st Hn).
  apply Z.eqb_neq in Hid; rewrite Hid; simpl.
  unfold dbMap_Exec, failure; rewrite Hf; simpl.
  eexists; split; [reflexivity|]; simpl.
  apply Z.eqb_neq in Hid.
  repeat split; auto.
  - intros tag Hin. apply filter_In in Hin as [_ H]; simpl in H.
    rewrite Z.eqb_refl in H; discriminate.
  - intros Hin; apply filter_In in Hin; tauto.
  - intros Hin; apply filter_In; split; [assumption|]; simpl.
    apply negb_true_iff, Z.eqb_neq; assumption.
  - intros other Ho.
    induction (photo_tags (tables st)) as [|[a b] l IH]; simpl; [reflexivity|].
    destruct (a =? ID photo) eqn:Ea; simpl.
    + apply Z.eqb_eq in Ea; subst a.
      replace (ID photo =? other) with false
        by (symmetry; apply Z.eqb_neq; congruence).
      exact IH.
    + destruct (a =? other); [f_equal|]; exact IH.
Qed.

Lemma UpdateTags_clears_only_this_photo_witness :
  let photo := withTags (Sample.photo 1 10 100 "Red Sunset" 0 0) [lit " "] in
  exists st',
    UpdateTags photo Sample.store = (None, st')
    /\ (forall tag, ~ In (ID photo, tag) (photo_tags (tables st')))
    /\ (forall other tag, other <> ID photo ->
          (In (other, tag) (photo_tags (tables st'))
           <-> In (other, tag) (photo_tags (tables Sample.store))))
    /\ (forall other, other <> ID photo ->
          filter (fun pt => fst pt =? other) (photo_tags (tables st'))
          = filter (fun pt => fst pt =? other) (photo_tags (tables Sample.store)))
    /\ photos (tables st') = photos (tables Sample.store)
    /\ tags (tables st') = tags (tables Sample.store)
    /\ users (tables st') = users (tables Sample.store).
Proof.
  intros photo.
  apply (UpdateTags_clears_only_this_photo photo Sample.store).
  - discriminate.
  - reflexivity.
  - reflexivity.
Defined.




(** *** Tag names stay in lower case *)

Lemma lowerChar_idem (c : ascii) : lowerChar (lowerChar c) = lowerChar c.
Proof. destruct c as [[] [] [] [] [] [] [] []]; reflexivity. Qed.

Lemma ToLower_lowercase (s : str) : lowercase (ToLower s).
Proof.
  unfold lowercase, ToLower; rewrite map_map.
  apply map_ext; intros c; apply lowerChar_idem.
Qed.

Lemma normalizeTags_lowercase (names : list str) (n : str) :
  In n (normalizeTags names) -> lowercase n.
Proof.
  unfold normalizeTags; intros H.
  apply in_map_iff in H as (x & <- & _); apply ToLower_lowercase.
Qed.

Lemma bindAll_In (params : list Value) (ns : list Z) :
  forall vs, bindAll params ns = Some vs -> forall v, In v vs -> In v params.
Proof.
  induction ns as [|n ns IH]; intros vs H v Hv; simpl in H.
  - injection H as <-; destruct Hv.
  - destruct (bind params n) as [x|] eqn:Ex; [|discriminate].
    destruct (bindAll params ns) as [xs|]; [|discriminate].
    injection H as <-.
    destruct Hv as [<-|Hv]; [|eapply IH; eauto].
    unfold bind in Ex; destruct (n <? 1); [discriminate|].
    eapply nth_error_In; exact Ex.
Qed.

Lemma texts_In (vs : list Value) :
  forall names, texts vs = Some names -> forall n, In n names -> In (VStr n) vs.
Proof.
  induction vs as [|[k|s] vs IH]; intros names H n Hn; simpl in H.
  - injection H as <-; destruct Hn.
  - discriminate.
  - destruct (texts vs) as [ss|]; [|discriminate].
    injection H as <-.
    destruct Hn as [<-|Hn]; [left; reflexivity | right; eapply IH; eauto].
Qed.

Lemma upsertTags_lowercase (names : list str) :
  forall ts next ids ts' next',
    upsertTags names ts next = (ids, ts', next') ->
    (forall n, In n names -> lowercase n) ->
    (forall t, In t ts -> lowercase (Tag_Name t)) ->
    forall t, In t ts' -> lowercase (Tag_Name t).
Proof.
  induction names as [|name names IH]; intros ts next ids ts' next' H Hn Ht;
    simpl in H.
  - injection H as _ <- _; exact Ht.
  - destruct (findTag name ts).
    + destruct (upsertTags names ts next) as [[i t'] n'] eqn:E.
      injection H as _ <- _.
      eapply IH; eauto; intros; apply Hn; right; assumption.
    + destruct (upsertTags names _ (next + 1)) as [[i t'] n'] eqn:E.
      injection H as _ <- _.
      eapply IH; [exact E | intros; apply Hn; right; assumption |].
      intros t Hin; apply in_app_or in Hin as [Hin|[<-|[]]]; [auto|].
      apply Hn; left; reflexivity.
Qed.

(** The tag names stay in lower case: [UpdateTags] hands only lower-case
    names to [add_tags]. *)
Lemma UpdateTags_keeps_tags_lowercase
  (photo : Photo) (st st' : Store) (err : option error) :
  (forall t, In t (tags (tables st)) -> lowercase (Tag_Name t)) ->
  UpdateTags photo st = (err, st') ->
  forall t, In t (tags (tables st')) -> lowercase (Tag_Name t).
Proof.
  intros Hlow; rewrite UpdateTags_branches.
  destruct (tagLoop_params (Tags photo) 0 [1] [VInt (ID photo)] true)
    as (args & -> & _).
  set (params := [VInt (ID photo)] ++ map VStr (normalizeTags (Tags photo))).
  assert (Hp : forall s, In (VStr s) params -> lowercase s).
  { intros s [E|Hs]; [discriminate|].
    apply in_map_iff in Hs as (n & E & Hn); injection E as <-.
    eapply normalizeTags_lowercase; eauto. }
  match goal with |- context [if ?c then _ else _] => destruct c end;
    unfold dbMap_Exec; destruct (failure st CallExec);
    try (intros H; injection H as _ <-; exact Hlow).
  destruct (execute _ _ _) as [msg|db] eqn:E;
    [intros H; injection H as _ <-; exact Hlow|].
  intros H; injection H as _ <-; cbn [tables setTables].
  unfold execute in E. destruct (negb _); [discriminate|].
  destruct (bindAll params args) as [[|[id|s] vs]|] eqn:Eb; try discriminate.
  destruct (texts vs) as [names|] eqn:Et; [|discriminate].
  injection E as <-.
  unfold add_tags.
  destruct (upsertTags names (tags (tables st)) (tags_id_seq (tables st)))
    as [[ids ts] next] eqn:Eu; cbn [tags].
  eapply upsertTags_lowercase; [exact Eu | | exact Hlow].
  intros n Hn; apply Hp.
  eapply bindAll_In; [exact Eb|].
  right; eapply texts_In; eauto.
Qed.

(** ** Point lookups *)

Lemma lookupPhoto_absent (db : DB) (id : Z) :
  (forall p, In p (photos db) -> ID p <> id) -> lookupPhoto db id = None.
Proof.
  intros H; unfold lookupPhoto.
  destruct (find (fun p => ID p =? id) (photos db)) as [p|] eqn:E; [|reflexivity].
  apply find_some in E as [Hin Hid].
  apply Z.eqb_eq in Hid; elim (H p Hin Hid).
Qed.

Lemma queryDetail_absent (db : DB) (id : Z) :
  (forall p, In p (photos db) -> ID p <> id) -> queryDetail db id = [].
Proof.
  intros H; unfold queryDetail.
  replace (filter (fun p => ID p =? id) (photos db)) with (@nil Photo);
    [reflexivity|].
  symmetry.
  induction (photos db) as [|p l IH]; simpl; [reflexivity|].
  destruct (ID p =? id) eqn:E.
  - apply Z.eqb_eq in E; elim (H p (or_introl eq_refl) E).
  - apply IH; intros q Hq; apply H; right; exact Hq.
Qed.

Lemma dbMap_SelectOne_detail (st : Store) (photoID : str) :
  dbMap_SelectOne st DetailByID [VStr photoID]
  = match failure st CallSelectOne with
    | Some e => inl e
    | None =>
        match int8in photoID with
        | Some id =>
            match queryDetail (tables st) id with
            | [] => inl ErrNoRows
            | [row] => inr row
            | _ :: _ :: _ => inl (PqError "multiple rows returned")
            end
        | None => inl (PqError "invalid input syntax for type bigint")
        end
    end.
Proof.
  unfold dbMap_SelectOne.
  destruct (failure st CallSelectOne); [reflexivity|].
  cbn [placeholders arityOK forallb negb andb List.length seq existsb].
  change (bind [VStr photoID] 1) with (Some (VStr photoID)).
  cbn [option_map keyOfValue].
  change (if negb _ then ?a else ?b) with b.
  destruct (int8in photoID); reflexivity.
Qed.

(** C7: when the text [photoID] denotes a key that no row of [photos]
    carries, [Get] and [GetDetail] return the nil object and no error; when
    the store fails they return its error, which is another outcome. *)
Theorem Get_GetDetail_not_found
  (photoID : str) (id : Z) (user : option User) (st : Store) :
  int8in photoID = Some id ->
  (forall p, In p (photos (tables st)) -> ID p <> id) ->
  (faults st CallGet = None -> Get photoID st = (None, None))
  /\ (faults st CallSelectOne = None ->
      GetDetail photoID user st = (None, None))
  /\ (forall msg, faults st CallGet = Some msg ->
        snd (Get photoID st) = Some (PqError msg)
        /\ Get photoID st <> (None, None))
  /\ (forall msg, faults st CallSelectOne = Some msg ->
        GetDetail photoID user st = (None, Some (PqError msg))).
Proof.
  intros Hkey Habs; repeat split.
  - intros Hf; unfold Get, dbMap_Get, failure; rewrite Hf.
    cbn [option_map keyOfValue]; rewrite Hkey.
    rewrite (lookupPhoto_absent _ _ Habs); reflexivity.
  - intros Hf; unfold GetDetail; rewrite dbMap_SelectOne_detail.
    unfold failure; rewrite Hf; cbn [option_map]; rewrite Hkey.
    rewrite (queryDetail_absent _ _ Habs); reflexivity.
  - unfold Get, dbMap_Get, failure; rewrite H; reflexivity.
  - unfold Get, dbMap_Get, failure; rewrite H; discriminate.
  - intros msg Hf; unfold GetDetail; rewrite dbMap_SelectOne_detail.
    unfold failure; rewrite Hf; reflexivity.
Qed.

Lemma Get_GetDetail_not_found_witness :
  (faults Sample.store CallGet = None -> Get (lit "7") Sample.store = (None, None))
  /\ (faults Sample.store CallSelectOne = None ->
      GetDetail (lit "7") None Sample.store = (None, None))
  /\ (forall msg, faults Sample.store CallGet = Some msg ->
        snd (Get (lit "7") Sample.store) = Some (PqError msg)
        /\ Get (lit "7") Sample.store <> (None, None))
  /\ (forall msg, faults Sample.store CallSelectOne = Some msg ->
        GetDetail (lit "7") None Sample.store = (None, Some (PqError msg))).
Proof.
  apply (Get_GetDetail_not_found (lit "7") 7 None Sample.store).
  - reflexivity.
  - simpl; intros p [<-|[<-|[]]]; discriminate.
Defined.

(** ** Permissions *)

(** C4: the permissions derived for a photo and a caller, and that they
    are the ones [GetDetail] returns.  [Edit] and [Delete] hold exactly for a
    signed-in caller who is an administrator or owns the photo; [Vote] holds
    exactly for a signed-in caller who does not own the photo and has not
    voted on it.  So a caller who is absent or not signed in gets nothing,
    the signed-in owner may edit and delete but not vote, and a signed-in
    administrator looking at somebody else's photo may edit and delete, and
    vote unless they have voted. *)
Theorem Permissions_derivation (photo : Photo) (user : option User) :
  let perms := permissionsFor photo user in
  (Edit perms = true <->
     exists u, authenticated user u
               /\ (IsAdmin u = true \/ OwnerID photo = User_ID u))
  /\ (Delete perms = true <->
     exists u, authenticated user u
               /\ (IsAdmin u = true \/ OwnerID photo = User_ID u))
  /\ (Vote perms = true <->
     exists u, authenticated user u
               /\ OwnerID photo <> User_ID u
               /\ HasVoted u (ID photo) = false)
  /\ ((forall u, ~ authenticated user u) ->
      perms = {| Edit := false; Delete := false; Vote := false |})
  /\ (forall u, authenticated user u -> OwnerID photo = User_ID u ->
      perms = {| Edit := true; Delete := true; Vote := false |})
  /\ (forall u, authenticated user u -> IsAdmin u = true ->
      OwnerID photo <> User_ID u ->
      perms = {| Edit := true; Delete := true;
                 Vote := negb (HasVoted u (ID photo)) |})
  /\ (forall photoID st d,
        GetDetail photoID user st = (Some d, None) ->
        Detail_Permissions d = Some (permissionsFor (Detail_Photo d) user)).
Proof.
  cbv zeta; unfold permissionsFor; cbn [Edit Delete Vote].
  assert (Hdetail : forall photoID st d,
            GetDetail photoID user st = (Some d, None) ->
            Detail_Permissions d
            = Some {| Edit := CanEdit (Detail_Photo d) user;
                      Delete := CanDelete (Detail_Photo d) user;
                      Vote := CanVote (Detail_Photo d) user |}).
  { intros photoID st d; unfold GetDetail.
    destruct (dbMap_SelectOne st DetailByID [VStr photoID])
      as [[|msg]|[row name]]; try discriminate.
    destruct (dbMap_SelectTags st TagsByPhoto [VInt (ID row)]) as [ts [e|]];
      [discriminate|].
    intros H; injection H as <-; reflexivity. }
  match goal with
  | |- ?A /\ ?B /\ ?C /\ ?D /\ ?E /\ ?F /\ _ =>
      cut (A /\ B /\ C /\ D /\ E /\ F);
      [intros (? & ? & ? & ? & ? & ?);
       repeat (split; [assumption|]); exact Hdetail |]
  end.
  clear Hdetail.
  unfold CanDelete, CanEdit, CanVote, authenticated.
  destruct user as [u|].
  - destruct (IsAuthenticated u) eqn:Ha; cbn [negb].
    + destruct (Z.eqb_spec (OwnerID photo) (User_ID u)) as [Ho|Ho].
      * rewrite orb_true_r.
        repeat split; try (intros; exists u; tauto); try discriminate.
        -- intros (u' & [Hu _] & Hne & _); injection Hu as <-; tauto.
        -- intros Hno; elim (Hno u); auto.
        -- intros u' [Hu _] _ Hne; injection Hu as <-; tauto.
      * rewrite orb_false_r.
        repeat split.
        -- intros Hadm; exists u; tauto.
        -- intros (u' & [Hu _] & [Hadm|Hown]); injection Hu as <-; tauto.
        -- intros Hadm; exists u; tauto.
        -- intros (u' & [Hu _] & [Hadm|Hown]); injection Hu as <-; tauto.
        -- intros Hv; exists u; apply negb_true_iff in Hv; tauto.
        -- intros (u' & [Hu _] & _ & Hv); injection Hu as <-.
           rewrite Hv; reflexivity.
        -- intros Hno; elim (Hno u); auto.
        -- intros u' [Hu _] Hown; injection Hu as <-; tauto.
        -- intros u' [Hu _] Hadm _; injection Hu as <-.
           rewrite Hadm; reflexivity.
    + repeat split; try discriminate;
        try (intros (u' & [Hu Hau] & _); injection Hu as <-; congruence);
        try (intros u' [Hu Hau]; injection Hu as <-; congruence).
  - repeat split; try discriminate;
      try (intros (u' & [Hu _] & _); discriminate);
      try (intros u' [Hu _]; discriminate).
Qed.

Lemma Permissions_derivation_witness :
  permissionsFor (Sample.photo 2 10 200 "abcdef" 0 0) (Some Sample.root)
  = {| Edit := true; Delete := true; Vote := false |}
  /\ permissionsFor (Sample.photo 2 10 200 "abcdef" 0 0) (Some Sample.dana)
     = {| Edit := true; Delete := true; Vote := false |}
  /\ exists d,
       GetDetail (lit "1") (Some Sample.root) Sample.store = (Some d, None)
       /\ Detail_Permissions d
          = Some (permissionsFor (Detail_Photo d) (Some Sample.root)).
Proof.
  pose proof (Permissions_derivation (Sample.photo 2 10 200 "abcdef" 0 0)
                (Some Sample.root)) as (_ & _ & _ & _ & _ & Hadmin & Hdetail).
  pose proof (Permissions_derivation (Sample.photo 2 10 200 "abcdef" 0 0)
                (Some Sample.dana)) as (_ & _ & _ & _ & Howner & _).
  split; [|split].
  - apply (Hadmin Sample.root); [split; reflexivity | reflexivity | discriminate].
  - apply (Howner Sample.dana); [split; reflexivity | reflexivity].
  - eexists; split; [reflexivity|].
    apply (Hdetail (lit "1") Sample.store); reflexivity.
Defined.

(** ** Search, the empty query *)

(** C8: [Search] with the empty query returns no list and no error,
    whatever the page number and the store. *)
Theorem Search_empty_query (pageNum : Z) (st : Store) :
  Search pageNum [] st = (None, None).
Proof. reflexivity. Qed.

(** ** Insert *)

(** What [Insert] does when the store accepts [Begin] and the row and
    refuses the tag statement: the error comes back and the row stays. *)
Lemma Insert_tag_step_fails (photo : Photo) (st : Store) (msg : string) :
  faults st CallBegin = None ->
  faults st CallInsert = None ->
  faults st CallExec = Some msg ->
  exists photo' st',
    Insert photo st = (photo', Some (PqError msg), st')
    /\ ID photo' = photos_id_seq (tables st) + 1
    /\ photos (tables st') = photos (tables st) ++ [withTags photo' []].
Proof.
  intros Hb Hi He.
  unfold Insert, dbMap_Begin, failure; rewrite Hb; cbn [option_map].
  unfold dbMap_Insert, PreInsert, Now, failure; cbn [faults tables].
  rewrite Hi; cbn [option_map insertPhoto].
  set (photo' := withID (withCreatedAt photo (clock st)) (photos_id_seq (tables st) + 1)).
  set (st1 := setTables _ _).
  assert (Hx : UpdateTags photo' st1 = (Some (PqError msg), st1)).
  { rewrite UpdateTags_branches.
    destruct (tagLoop 0 (Tags photo') [1] [VInt (ID photo')] true) as [[a p] e].
    assert (Hd : forall sql ps, dbMap_Exec st1 sql ps = (Some (PqError msg), st1)).
    { intros; unfold dbMap_Exec, failure; subst st1; cbn [faults setTables].
      rewrite He; reflexivity. }
    destruct (e && negb (ID photo' =? 0)); apply Hd. }
  rewrite Hx.
  exists photo', st1; repeat split.
Qed.

(** C1 (the code departs from it): [Insert] is not atomic.  The row is
    written by [dbMap.Insert], outside the transaction that [Begin] opened,
    and no path rolls back.  For the upload whose first tag is blank the tag
    statement is [SELECT add_tags($1,$3)] with two parameters, which the
    database refuses: [Insert] returns the error and the photo row is
    persisted, without tags.  The same happens when the tag statement fails
    for any other reason. *)
Theorem Insert_not_atomic :
  (exists photo' st',
     Insert Sample.upload Sample.store
     = (photo', Some (PqError arityError), st')
     /\ map ID (photos (tables st')) = [1; 2; 3]
     /\ map ID (photos (tables Sample.store)) = [1; 2]
     /\ photo_tags (tables st') = photo_tags (tables Sample.store))
  /\ (exists photo' st',
     Insert (Sample.photo 0 10 0 "New" 0 0) Sample.storeExecDown
     = (photo', Some (PqError "connection reset"), st')
     /\ map ID (photos (tables st')) = [1; 2; 3]
     /\ map ID (photos (tables Sample.storeExecDown)) = [1; 2]).
Proof.
  split; do 2 eexists; (split; [vm_compute; reflexivity|]);
    repeat split; reflexivity.
Qed.

(** ** Ordering *)

Lemma keysLt_asym (ks : list OrderKey) (a b : Photo) :
  keysLt ks a b = true -> keysLt ks b a = false.
Proof.
  induction ks as [|k ks IH]; simpl; [discriminate|].
  intros H.
  apply orb_true_iff in H as [H|H].
  - apply Z.ltb_lt in H.
    apply orb_false_iff; split.
    + apply Z.ltb_ge; lia.
    + apply andb_false_iff; left; apply Z.eqb_neq; lia.
  - apply andb_true_iff in H as [He Hl]; apply Z.eqb_eq in He.
    apply orb_false_iff; split.
    + apply Z.ltb_ge; lia.
    + rewrite (IH Hl); apply andb_false_r.
Qed.

Lemma keysLt_false_trans (ks : list OrderKey) (a b c : Photo) :
  keysLt ks a b = false -> keysLt ks b c = false -> keysLt ks a c = false.
Proof.
  induction ks as [|k ks IH]; simpl; [reflexivity|].
  intros Hab Hbc.
  apply orb_false_iff in Hab as [Hab1 Hab2], Hbc as [Hbc1 Hbc2].
  apply Z.ltb_ge in Hab1, Hbc1.
  apply orb_false_iff; split; [apply Z.ltb_ge; lia|].
  destruct (Z.eqb_spec (keyOf k a) (keyOf k c)) as [E|E]; [|reflexivity].
  assert (E1 : keyOf k a = keyOf k b) by lia.
  assert (E2 : keyOf k b = keyOf k c) by lia.
  apply Z.eqb_eq in E1, E2; rewrite E1 in Hab2; rewrite E2 in Hbc2.
  simpl in *; auto.
Qed.

Lemma insertDesc_In (ks : list OrderKey) (x y : Photo) (l : list Photo) :
  In y (insertDesc ks x l) <-> y = x \/ In y l.
Proof.
  induction l as [|z l IH]; simpl.
  - intuition.
  - destruct (keysLt ks x z); simpl; rewrite ?IH; intuition.
Qed.

Lemma insertDesc_ordered (ks : list OrderKey) (x : Photo) (l : list Photo) :
  orderedDesc ks l -> orderedDesc ks (insertDesc ks x l).
Proof.
  unfold orderedDesc.
  induction l as [|y l IH]; intros Hs; simpl.
  - constructor; [constructor | constructor].
  - inversion Hs as [|? ? Hl Hy]; subst.
    destruct (keysLt ks x y) eqn:E.
    + constructor; [apply IH; assumption|].
      apply Forall_forall; intros z Hz.
      apply insertDesc_In in Hz as [->|Hz].
      * apply keysLt_asym; assumption.
      * rewrite Forall_forall in Hy; apply Hy; assumption.
    + constructor; [assumption|].
      constructor; [assumption|].
      rewrite Forall_forall in Hy |- *; intros z Hz.
      apply (keysLt_false_trans ks x y z); auto.
Qed.

Lemma orderByDesc_ordered (ks : list OrderKey) (rows : list Photo) :
  orderedDesc ks (orderByDesc ks rows).
Proof.
  unfold orderByDesc; induction rows as [|p rows IH]; simpl.
  - constructor.
  - apply insertDesc_ordered; exact IH.
Qed.

Lemma orderByDesc_In (ks : list OrderKey) (rows : list Photo) (p : Photo) :
  In p (orderByDesc ks rows) <-> In p rows.
Proof.
  unfold orderByDesc; induction rows as [|r rows IH]; simpl; [tauto|].
  rewrite insertDesc_In, IH; intuition.
Qed.

Lemma insertDesc_length (ks : list OrderKey) (x : Photo) (l : list Photo) :
  List.length (insertDesc ks x l) = S (List.length l).
Proof.
  induction l as [|y l IH]; simpl; [reflexivity|].
  destruct (keysLt ks x y); simpl; [rewrite IH|]; reflexivity.
Qed.

Lemma orderedDesc_skipn (ks : list OrderKey) (n : nat) (l : list Photo) :
  orderedDesc ks l -> orderedDesc ks (skipn n l).
Proof.
  unfold orderedDesc; revert l; induction n as [|n IH]; intros [|x l] H; simpl;
    try assumption.
  inversion H; subst; apply IH; assumption.
Qed.

Lemma orderedDesc_firstn (ks : list OrderKey) (n : nat) (l : list Photo) :
  orderedDesc ks l -> orderedDesc ks (firstn n l).
Proof.
  unfold orderedDesc; revert l; induction n as [|n IH]; intros [|x l] H; simpl;
    try constructor.
  - inversion H; subst; apply IH; assumption.
  - inversion H as [|? ? _ Hx]; subst.
    rewrite Forall_forall in Hx |- *; intros z Hz.
    apply Hx; rewrite <- (firstn_skipn n l); apply in_or_app; left; exact Hz.
Qed.

Lemma limitOffset_ordered (ks : list OrderKey) (l o : Z) (rows page : list Photo) :
  orderedDesc ks rows -> limitOffset l o rows = Some page -> orderedDesc ks page.
Proof.
  unfold limitOffset; intros Hs H.
  destruct ((l <? 0) || (o <? 0)); [discriminate|].
  injection H as <-.
  apply orderedDesc_firstn, orderedDesc_skipn; assumption.
Qed.

Lemma queryPhotos_page (db : DB) (orderBy : str) (l o : Z) :
  queryPhotos db (PagePhotos orderBy) [VInt l; VInt o]
  = match parseOrderBy orderBy with
    | Some ks =>
        match limitOffset l o (orderByDesc ks (photos db)) with
        | Some rows => inr rows
        | None => inl "LIMIT and OFFSET must not be negative"%string
        end
    | None => inl "syntax error or invalid input"%string
    end.
Proof. destruct (parseOrderBy orderBy) eqn:E; unfold queryPhotos; rewrite E; reflexivity. Qed.

(** What [All] orders by: the score when asked for votes, the creation
    time otherwise; in both cases by that key alone. *)
Lemma All_ordered (pageNum : Z) (orderBy : str) (st : Store) (l : PhotoList) :
  All pageNum orderBy st = (Some l, None) ->
  orderedDesc (if str_eqb orderBy (lit "votes") then [ByVotes] else [ByCreatedAt])
    (Photos l).
Proof.
  unfold All.
  destruct (dbMap_SelectInt st CountPhotos []) as [total [e|]]; [discriminate|].
  unfold dbMap_Select.
  destruct (failure st CallSelect); [discriminate|].
  rewrite queryPhotos_page.
  destruct (str_eqb orderBy (lit "votes"));
    [change (parseOrderBy (lit "(up_votes - down_votes)")) with (Some [ByVotes])
    |change (parseOrderBy (lit "created_at")) with (Some [ByCreatedAt])];
    cbv beta iota;
    (destruct (limitOffset PageSize (getOffset pageNum) _) eqn:E; [|discriminate]);
    intros H; injection H as <-; cbn [Photos NewPhotoList];
    (eapply limitOffset_ordered; [apply orderByDesc_ordered | exact E]).
Qed.

(** C6 (the code departs from it): [All] with [votes] orders by the score
    alone, [ORDER BY (up_votes - down_votes) DESC], where [ByOwnerID] and
    [Search] add [created_at DESC]: photos of equal score come in the order
    of the scan.  Here two photos have the score 0 and the older one comes
    first.  With any other order word the page is by creation time,
    newest first. *)
Theorem All_votes_ties_unbroken :
  exists older newer l,
    All 1 (lit "votes") Sample.store = (Some l, None)
    /\ Photos l = [older; newer]
    /\ UpVotes older - DownVotes older = UpVotes newer - DownVotes newer
    /\ CreatedAt older < CreatedAt newer
    /\ exists l', All 1 (lit "") Sample.store = (Some l', None)
                  /\ Photos l' = [newer; older].
Proof.
  do 3 eexists; split; [vm_compute; reflexivity|].
  split; [reflexivity|].
  split; [reflexivity|].
  split; [reflexivity|].
  eexists; split; vm_compute; reflexivity.
Qed.

(** ** Splitting a query *)

Lemma SplitSpace_not_nil (q : str) : SplitSpace q <> [].
Proof.
  destruct q as [|c q]; simpl; [discriminate|].
  destruct (Ascii.eqb c space); [discriminate|].
  destruct (SplitSpace q); discriminate.
Qed.

Lemma SplitSpace_pieces (q : str) : Forall noSpace (SplitSpace q).
Proof.
  induction q as [|c q IH]; simpl.
  - constructor; [intros []|constructor].
  - destruct (Ascii.eqb_spec c space) as [->|Hc].
    + constructor; [intros []|exact IH].
    + destruct (SplitSpace q) as [|h t]; inversion IH; subst.
      * constructor; [|constructor]. intros [E|[]]; congruence.
      * constructor; [|assumption].
        intros [E|Hin]; [congruence|contradiction].
Qed.

Lemma SplitSpace_piece_then (e s : str) :
  noSpace e -> SplitSpace (e ++ space :: s) = e :: SplitSpace s.
Proof.
  unfold noSpace; induction e as [|c e IH]; intros He; simpl.
  - reflexivity.
  - destruct (Ascii.eqb_spec c space) as [->|Hc].
    + elim He; left; reflexivity.
    + rewrite IH; [reflexivity|]. intros H; apply He; right; exact H.
Qed.

Lemma SplitSpace_one_piece (e : str) : noSpace e -> SplitSpace e = [e].
Proof.
  unfold noSpace; induction e as [|c e IH]; intros He; simpl.
  - reflexivity.
  - destruct (Ascii.eqb_spec c space) as [->|Hc].
    + elim He; left; reflexivity.
    + rewrite IH; [reflexivity|]. intros H; apply He; right; exact H.
Qed.

Lemma SplitSpace_JoinSpace (ws : list str) :
  ws <> [] -> Forall noSpace ws -> SplitSpace (JoinSpace ws) = ws.
Proof.
  induction ws as [|e ws IH]; intros Hne Hall; [congruence|].
  inversion Hall as [|? ? He Hws]; subst.
  destruct ws as [|e' ws].
  - simpl; apply SplitSpace_one_piece; assumption.
  - change (JoinSpace (e :: e' :: ws)) with (e ++ space :: JoinSpace (e' :: ws)).
    rewrite SplitSpace_piece_then by assumption.
    rewrite IH; [reflexivity|discriminate|assumption].
Qed.

Lemma SplitSpace_empty (q : str) : SplitSpace q = [[]] -> q = [].
Proof.
  destruct q as [|c q]; simpl; [reflexivity|].
  destruct (Ascii.eqb c space).
  - intros H; injection H as H; elim (SplitSpace_not_nil q H).
  - destruct (SplitSpace q); discriminate.
Qed.

Lemma JoinSpace_empty (ws : list str) :
  JoinSpace ws = [] -> ws = [] \/ ws = [[]].
Proof.
  destruct ws as [|e [|e' ws]]; simpl; auto.
  - intros ->; auto.
  - intros H; apply app_eq_nil in H as [_ H]; discriminate.
Qed.

Lemma isEmpty_first_pieces (q : str) (n : nat) :
  isEmpty (JoinSpace (firstn (S (S n)) (SplitSpace q))) = isEmpty q.
Proof.
  destruct (isEmpty q) eqn:E.
  - apply isEmpty_true in E; subst; reflexivity.
  - destruct (isEmpty (JoinSpace _)) eqn:E'; [|reflexivity].
    apply isEmpty_true, JoinSpace_empty in E'.
    destruct (SplitSpace q) as [|e ws] eqn:Es; [elim (SplitSpace_not_nil q Es)|].
    simpl in E'; destruct E' as [E'|E']; [discriminate|].
    injection E' as -> E'.
    assert (ws = []) as ->.
    { destruct ws; simpl in E'; congruence. }
    apply SplitSpace_empty in Es; subst; discriminate.
Qed.

(** ** The loop of Search *)

Lemma searchLoop_tokens (ws : list str) :
  forall num clauses params,
    let toks := untilBlank (firstn (Z.to_nat (7 - num)) (map TrimSpace ws)) in
    searchLoop num ws clauses params
    = (clauses ++ numbered num toks,
       params ++ map (fun w => VStr (pattern w)) toks).
Proof.
  induction ws as [|w ws IH]; intros num clauses params; cbn zeta.
  - rewrite firstn_nil; simpl; rewrite !app_nil_r; reflexivity.
  - cbn [searchLoop map].
    destruct (Z.ltb_spec 6 num) as [Hn|Hn].
    + rewrite orb_true_r.
      replace (Z.to_nat (7 - num)) with O by lia.
      simpl; rewrite !app_nil_r; reflexivity.
    + rewrite orb_false_r.
      replace (Z.to_nat (7 - num)) with (S (Z.to_nat (7 - (num + 1)))) by lia.
      cbn [firstn untilBlank].
      destruct (isEmpty (TrimSpace w)).
      * simpl; rewrite !app_nil_r; reflexivity.
      * rewrite IH; cbn [numbered map].
        rewrite <- !app_assoc; reflexivity.
Qed.

Lemma Search_by_tokens (pageNum : Z) (q : str) (st : Store) :
  Search pageNum q st
  = if isEmpty q then (None, None)
    else
      let toks := searchTokens q in
      let clauses := numbered 0 toks in
      let params := map (fun w => VStr (pattern w)) toks in
      match dbMap_SelectInt st (CountSearch clauses) params with
      | (_, Some err) => (None, Some err)
      | (total, None) =>
          let numParams := Z.of_nat (List.length params) in
          match dbMap_Select st (PageSearch clauses (numParams + 1) (numParams + 2))
                  (params ++ [VInt PageSize; VInt (getOffset pageNum)]) with
          | (_, Some err) => (None, Some err)
          | (photos, None) => (Some (NewPhotoList photos total pageNum), None)
          end
      end.
Proof.
  unfold Search, searchTokens.
  destruct (isEmpty q); [reflexivity|].
  rewrite searchLoop_tokens; reflexivity.
Qed.

Lemma searchTokens_first_seven (q : str) :
  searchTokens (JoinSpace (firstn 7 (SplitSpace q))) = searchTokens q.
Proof.
  unfold searchTokens.
  rewrite SplitSpace_JoinSpace.
  - rewrite <- !firstn_map, firstn_firstn; reflexivity.
  - pose proof (SplitSpace_not_nil q) as H.
    destruct (SplitSpace q); [congruence|discriminate].
  - pose proof (SplitSpace_pieces q) as H.
    rewrite <- (firstn_skipn 7 (SplitSpace q)) in H.
    apply Forall_app in H; tauto.
Qed.

(** C2, as the code has it: [Search] cuts the query at single spaces,
    trims the pieces, stops at the first piece that is blank and looks at no
    piece beyond the seventh, without an error.  So a search behaves as the
    search over the first seven pieces of its query, and two queries that
    keep the same tokens (and are both empty or both not) give the same
    result. *)
Theorem Search_ignores_beyond_seventh (pageNum : Z) (q : str) (st : Store) :
  Search pageNum q st
  = Search pageNum (JoinSpace (firstn 7 (SplitSpace q))) st
  /\ forall q', isEmpty q' = isEmpty q -> searchTokens q' = searchTokens q ->
       Search pageNum q' st = Search pageNum q st.
Proof.
  assert (H : forall q', isEmpty q' = isEmpty q ->
                         searchTokens q' = searchTokens q ->
                         Search pageNum q' st = Search pageNum q st).
  { intros q' He Ht; rewrite !Search_by_tokens, He, Ht; reflexivity. }
  split; [|exact H].
  symmetry; apply H.
  - apply (isEmpty_first_pieces q 5).
  - apply searchTokens_first_seven.
Qed.

Lemma Search_ignores_beyond_seventh_witness :
  Search 1 (lit "a b c d e f g h i") Sample.store
  = Search 1 (lit "a b c d e f g") Sample.store
  /\ Search 1 (lit "red  sunrise") Sample.store
     = Search 1 (lit "red") Sample.store.
Proof.
  split.
  - exact (proj1 (Search_ignores_beyond_seventh 1 (lit "a b c d e f g h i")
                    Sample.store)).
  - apply (proj2 (Search_ignores_beyond_seventh 1 (lit "red") Sample.store));
      reflexivity.
Defined.

(** C2, as stated, fails: the seventh token is not ignored, and a blank
    piece is not skipped but ends the query. *)
Lemma Search_seventh_token_counts :
  Search 1 (lit "a b c d e f g") Sample.store
  <> Search 1 (lit "a b c d e f") Sample.store
  /\ Search 1 (lit "red  mountain") Sample.store
     <> Search 1 (lit "red mountain") Sample.store.
Proof.
  split; vm_compute; discriminate.
Qed.

(** ** LIKE *)

Lemma isMeta_upperChar (c : ascii) : isMeta (upperChar c) = isMeta c.
Proof.
  destruct c as [[] [] [] [] [] [] [] []]; reflexivity.
Qed.

Lemma lowerChar_upperChar (c : ascii) :
  lowerChar c = c -> lowerChar (upperChar c) = c.
Proof.
  destruct c as [[] [] [] [] [] [] [] []]; vm_compute; congruence.
Qed.

Lemma plain_UPPER (w : str) : plain w -> plain (UPPER w).
Proof.
  unfold plain, UPPER; induction w as [|c w IH]; simpl; [reflexivity|].
  rewrite isMeta_upperChar.
  intros H; apply andb_true_iff in H as [Hc Hw].
  rewrite Hc, (IH Hw); reflexivity.
Qed.

Lemma UPPER_pattern (w : str) : UPPER (pattern w) = pattern (UPPER w).
Proof.
  unfold pattern, UPPER; rewrite !map_app; reflexivity.
Qed.

Lemma ToLower_UPPER (s : str) : lowercase s -> ToLower (UPPER s) = s.
Proof.
  unfold lowercase, ToLower, UPPER; induction s as [|c s IH]; simpl.
  - reflexivity.
  - intros H; injection H as Hc Hs.
    rewrite (lowerChar_upperChar c Hc), (IH Hs); reflexivity.
Qed.

Lemma like_percent (pat s : str) :
  like ("%"%char :: pat) s = true
  <-> exists pre s', s = pre ++ s' /\ like pat s' = true.
Proof.
  induction s as [|x s IH].
  - change (like ("%"%char :: pat) []) with (like pat [] || false).
    rewrite orb_false_r; split.
    + intros H; exists [], []; auto.
    + intros (pre & s' & E & H).
      symmetry in E; apply app_eq_nil in E as [_ ->]; exact H.
  - change (like ("%"%char :: pat) (x :: s))
      with (like pat (x :: s) || like ("%"%char :: pat) s).
    rewrite orb_true_iff, IH; split.
    + intros [H|(pre & s' & -> & H)].
      * exists [], (x :: s); auto.
      * exists (x :: pre), s'; auto.
    + intros (pre & s' & E & H).
      destruct pre as [|y pre]; simpl in E.
      * left; subst; exact H.
      * injection E as <- ->; right; exists pre, s'; auto.
Qed.

Lemma like_plain_char (c : ascii) (pat s : str) :
  isMeta c = false ->
  like (c :: pat) s
  = match s with [] => false | x :: s' => Ascii.eqb x c && like pat s' end.
Proof.
  unfold isMeta; intros H.
  apply orb_false_iff in H as [H H3]; apply orb_false_iff in H as [H1 H2].
  destruct s; simpl; rewrite H1, H2, H3; reflexivity.
Qed.

Lemma like_plain_prefix (w pat s : str) :
  plain w ->
  (like (w ++ pat) s = true <-> exists s', s = w ++ s' /\ like pat s' = true).
Proof.
  unfold plain; revert s; induction w as [|c w IH]; intros s Hw.
  - simpl; split; [intros H; exists s; auto | intros (s' & -> & H); exact H].
  - simpl in Hw; apply andb_true_iff in Hw as [Hc Hw].
    apply negb_true_iff in Hc.
    change ((c :: w) ++ pat) with (c :: (w ++ pat)).
    rewrite like_plain_char by assumption.
    destruct s as [|x s]; [split; [discriminate|intros (s' & E & _); discriminate]|].
    rewrite andb_true_iff, Ascii.eqb_eq, (IH s Hw); split.
    + intros [-> (s' & -> & H)]; exists s'; auto.
    + intros (s' & E & H); injection E as -> ->; split; [reflexivity|].
      exists s'; auto.
Qed.

(** A pattern made of a plain token matches exactly the strings the token
    occurs in. *)
Lemma like_pattern (w s : str) :
  plain w -> (like (pattern w) s = true <-> substring w s).
Proof.
  intros Hw; unfold pattern, substring.
  change (lit "%" ++ w ++ lit "%") with ("%"%char :: (w ++ ["%"%char])).
  rewrite like_percent; split.
  - intros (pre & s' & -> & H).
    apply (like_plain_prefix w _ _ Hw) in H as (post & -> & _).
    exists pre, post; reflexivity.
  - intros (pre & post & ->).
    exists pre, (w ++ post); split; [reflexivity|].
    apply (like_plain_prefix w _ _ Hw).
    exists post; split; [reflexivity|].
    apply like_percent; exists post, []; rewrite app_nil_r; auto.
Qed.

Lemma substring_containsFold (w s : str) : substring w s -> containsFold w s.
Proof.
  intros (pre & post & ->); exists (UPPER pre), (UPPER post).
  unfold UPPER; rewrite !map_app; reflexivity.
Qed.

Lemma containsFold_lowercase (w s : str) :
  lowercase w -> lowercase s -> containsFold w s -> substring w s.
Proof.
  intros Hw Hs (pre & post & E).
  apply (f_equal ToLower) in E.
  rewrite (ToLower_UPPER s Hs) in E.
  unfold ToLower in E; rewrite !map_app in E.
  fold (ToLower (UPPER w)) in E; rewrite (ToLower_UPPER w Hw) in E.
  eexists _, _; exact E.
Qed.

(** ** Binding the parameters of a search *)

Lemma numbered_In {A : Type} (l : list A) :
  forall num z,
    In z (numbered num l) <-> num + 1 <= z <= num + Z.of_nat (List.length l).
Proof.
  induction l as [|a l IH]; intros num z; simpl numbered.
  - simpl; lia.
  - simpl In; rewrite IH; simpl List.length; lia.
Qed.

Lemma numbered_app {A : Type} (a b : list A) :
  forall num,
    numbered num (a ++ b)
    = numbered num a ++ numbered (num + Z.of_nat (List.length a)) b.
Proof.
  induction a as [|x a IH]; intros num; simpl numbered.
  - simpl; f_equal; lia.
  - simpl app; rewrite IH; do 3 f_equal; simpl List.length; lia.
Qed.

Lemma numbered_ext {A B : Type} (a : list A) (b : list B) :
  List.length a = List.length b ->
  forall num, numbered num a = numbered num b.
Proof.
  revert b; induction a as [|x a IH]; intros [|y b] H num; simpl in *;
    try discriminate; [reflexivity|].
  f_equal; apply IH; lia.
Qed.

Lemma arityOK_numbered (params : list Value) :
  arityOK (numbered 0 params) params = true.
Proof.
  unfold arityOK; apply andb_true_iff; split; apply forallb_forall.
  - intros z Hz; apply numbered_In in Hz.
    apply andb_true_iff; split; [apply Z.leb_le | apply Z.leb_le]; lia.
  - intros i Hi; apply in_seq in Hi.
    apply existsb_exists; exists (Z.of_nat i); split; [|apply Z.eqb_refl].
    apply numbered_In; lia.
Qed.

Lemma bind_app (pre post : list Value) (v : Value) :
  bind (pre ++ v :: post) (Z.of_nat (List.length pre) + 1) = Some v.
Proof.
  unfold bind.
  destruct (Z.ltb_spec (Z.of_nat (List.length pre) + 1) 1); [lia|].
  replace (Z.to_nat (Z.of_nat (List.length pre) + 1 - 1)) with (List.length pre)
    by lia.
  rewrite nth_error_app2 by lia.
  rewrite Nat.sub_diag; reflexivity.
Qed.

Lemma bindAll_numbered (vs : list Value) :
  forall pre post,
    bindAll (pre ++ vs ++ post) (numbered (Z.of_nat (List.length pre)) vs)
    = Some vs.
Proof.
  induction vs as [|v vs IH]; intros pre post; [reflexivity|].
  cbn [numbered bindAll app].
  rewrite bind_app.
  specialize (IH (pre ++ [v]) post).
  rewrite <- app_assoc in IH; cbn [app] in IH.
  rewrite length_app in IH; cbn [List.length] in IH.
  replace (Z.of_nat (List.length pre + 1)) with (Z.of_nat (List.length pre) + 1)
    in IH by lia.
  rewrite IH; reflexivity.
Qed.

Lemma texts_patterns (toks : list str) :
  texts (map (fun w => VStr (pattern w)) toks) = Some (map pattern toks).
Proof.
  induction toks as [|w toks IH]; simpl; [reflexivity|].
  rewrite IH; reflexivity.
Qed.

(** ** The rows a search keeps *)

Lemma distinct_In (rows : list Photo) (p : Photo) :
  In p (distinct rows) <-> In p rows.
Proof.
  induction rows as [|r rows IH]; simpl; [tauto|].
  rewrite filter_In, IH; split.
  - intros [H|[H _]]; auto.
  - intros [H|H]; auto.
    destruct (Photo_eqb r p) eqn:E.
    + left; apply Photo_eqb_eq; exact E.
    + right; auto.
Qed.

Lemma distinct_NoDup (rows : list Photo) : NoDup (distinct rows).
Proof.
  induction rows as [|r rows IH]; simpl; constructor.
  - intros H; apply filter_In in H as [_ H].
    apply negb_true_iff in H.
    assert (E : Photo_eqb r r = true) by (apply Photo_eqb_eq; reflexivity).
    congruence.
  - apply NoDup_filter; exact IH.
Qed.

Lemma intersect_In (a b : list Photo) (p : Photo) :
  In p (intersect a b) <-> In p a /\ In p b.
Proof.
  unfold intersect; rewrite filter_In, existsb_exists; split.
  - intros [Ha (q & Hq & E)]; apply Photo_eqb_eq in E; subst; auto.
  - intros [Ha Hb]; split; [assumption|].
    exists p; split; [assumption | apply Photo_eqb_eq; reflexivity].
Qed.

Lemma clauseRows_In (db : DB) (pat : str) (p : Photo) :
  In p (clauseRows db pat) <-> In p (photos db) /\ clauseMatch db pat p = true.
Proof. unfold clauseRows; rewrite distinct_In, filter_In; tauto. Qed.

Lemma intersectAll_In (db : DB) (pats : list str) :
  forall init p,
    In p (fold_left (fun acc pt => intersect acc (clauseRows db pt)) pats init)
    <-> In p init /\ forall pt, In pt pats -> In p (clauseRows db pt).
Proof.
  induction pats as [|pt pats IH]; intros init p; simpl.
  - intuition.
  - rewrite IH, intersect_In; split.
    + intros [[Hi Hc] H]; split; [assumption|].
      intros pt' [<-|Hin]; auto.
    + intros [Hi H]; repeat split; auto.
Qed.

Lemma intersectAll_NoDup (db : DB) (pats : list str) :
  forall init,
    NoDup init ->
    NoDup (fold_left (fun acc pt => intersect acc (clauseRows db pt)) pats init).
Proof.
  induction pats as [|pt pats IH]; intros init H; simpl; [assumption|].
  apply IH; unfold intersect; apply NoDup_filter; assumption.
Qed.

(** What a search clause asks of a photo, for a plain token. *)
Lemma clauseMatch_pattern (db : DB) (w : str) (p : Photo) :
  plain w ->
  (clauseMatch db (pattern w) p = true
   <-> exists u, In u (users db) /\ u_id u = OwnerID p
         /\ (containsFold w (Title p) \/ containsFold w (u_name u)
             \/ exists t, In t (tags db) /\ In (ID p, Tag_ID t) (photo_tags db)
                          /\ substring w (Tag_Name t))).
Proof.
  intros Hw; unfold clauseMatch, containsFold.
  rewrite existsb_exists, UPPER_pattern.
  pose proof (plain_UPPER w Hw) as Hu.
  split.
  - intros (u & Hin & H); exists u; split; [assumption|].
    apply andb_true_iff in H as [Hid H]; apply Z.eqb_eq in Hid.
    split; [assumption|].
    apply orb_true_iff in H as [H|H]; [apply orb_true_iff in H as [H|H]|].
    + left; apply like_pattern; assumption.
    + right; left; apply like_pattern; assumption.
    + right; right.
      apply existsb_exists in H as ([a b] & Hpt & H).
      apply andb_true_iff in H as [Ha H]; apply Z.eqb_eq in Ha.
      apply existsb_exists in H as (t & Ht & H).
      apply andb_true_iff in H as [Hb H]; apply Z.eqb_eq in Hb.
      simpl in Ha, Hb; subst.
      exists t; repeat split; try assumption.
      apply like_pattern; assumption.
  - intros (u & Hin & Hid & H); exists u; split; [assumption|].
    apply andb_true_iff; split; [apply Z.eqb_eq; assumption|].
    destruct H as [H|[H|(t & Ht & Hpt & H)]].
    + apply (like_pattern _ _ Hu) in H; rewrite H; reflexivity.
    + apply (like_pattern _ _ Hu) in H; rewrite H, orb_true_r; reflexivity.
    + apply orb_true_iff; right.
      apply existsb_exists; exists (ID p, Tag_ID t); split; [assumption|].
      simpl; rewrite Z.eqb_refl; simpl.
      apply existsb_exists; exists t; split; [assumption|].
      rewrite Z.eqb_refl; simpl.
      apply like_pattern; assumption.
Qed.

Lemma clauseMatch_tokenFound (db : DB) (w : str) (p : Photo) :
  plain w -> lowercase w ->
  (forall t, In t (tags db) -> lowercase (Tag_Name t)) ->
  (clauseMatch db (pattern w) p = true <-> tokenFound db w p).
Proof.
  intros Hw Hl Htags; rewrite (clauseMatch_pattern db w p Hw).
  unfold tokenFound, ownerNamed, taggedWith; split.
  - intros (u & Hu & Hid & H); exists (u_name u); split; [exists u; auto|].
    destruct H as [H|[H|(t & Ht & Hpt & H)]]; auto.
    right; right; exists (Tag_Name t); split; [exists t; auto|].
    apply substring_containsFold; exact H.
  - intros (owner & (u & Hu & Hid & <-) & H); exists u; repeat split; auto.
    destruct H as [H|[H|(name & (t & Ht & Hpt & <-) & H)]]; auto.
    right; right; exists t; repeat split; auto.
    apply containsFold_lowercase; auto.
Qed.

Lemma searchRows_tokens (db : DB) (toks : list str) (extra : list Value) :
  toks <> [] ->
  searchRows db (numbered 0 toks)
    (map (fun w => VStr (pattern w)) toks ++ extra)
  = inr (searchSet db toks).
Proof.
  intros Hne; unfold searchRows, searchSet.
  rewrite (numbered_ext toks (map (fun w => VStr (pattern w)) toks))
    by (rewrite length_map; reflexivity).
  pose proof (bindAll_numbered (map (fun w => VStr (pattern w)) toks) [] extra)
    as Hb; cbn [app List.length Z.of_nat] in Hb.
  rewrite Hb, texts_patterns.
  destruct toks; [congruence|reflexivity].
Qed.

Lemma searchSet_In (db : DB) (toks : list str) (p : Photo) :
  toks <> [] ->
  (In p (searchSet db toks)
   <-> In p (photos db)
       /\ forall w, In w toks -> clauseMatch db (pattern w) p = true).
Proof.
  intros Hne; unfold searchSet.
  destruct toks as [|w toks]; [congruence|]; cbn [map].
  rewrite intersectAll_In, clauseRows_In; split.
  - intros [[Hp Hw] H]; split; [assumption|].
    intros w' [<-|Hin]; [assumption|].
    apply (clauseRows_In db (pattern w') p), H, in_map; assumption.
  - intros [Hp H]; repeat split; auto.
    + apply H; left; reflexivity.
    + intros pt Hin; apply in_map_iff in Hin as (w' & <- & Hin).
      apply clauseRows_In; split; [assumption|apply H; right; assumption].
Qed.

Lemma searchSet_NoDup (db : DB) (toks : list str) : NoDup (searchSet db toks).
Proof.
  unfold searchSet; destruct (map pattern toks); [constructor|].
  apply intersectAll_NoDup, distinct_NoDup.
Qed.

Lemma queryInt_search (db : DB) (toks : list str) :
  toks <> [] ->
  queryInt db (CountSearch (numbered 0 toks))
    (map (fun w => VStr (pattern w)) toks)
  = inr (Z.of_nat (List.length (searchSet db toks))).
Proof.
  intros Hne; unfold queryInt; cbn [placeholders].
  rewrite (numbered_ext toks (map (fun w => VStr (pattern w)) toks)) at 1
    by (rewrite length_map; reflexivity).
  rewrite arityOK_numbered; cbn [negb].
  rewrite <- (app_nil_r (map _ toks)), searchRows_tokens by assumption.
  reflexivity.
Qed.

Lemma queryPhotos_search (db : DB) (toks : list str) (l o : Z) :
  toks <> [] ->
  let params := map (fun w => VStr (pattern w)) toks in
  let n := Z.of_nat (List.length params) in
  queryPhotos db (PageSearch (numbered 0 toks) (n + 1) (n + 2))
    (params ++ [VInt l; VInt o])
  = match limitOffset l o (orderByDesc [ByVotes; ByCreatedAt] (searchSet db toks)) with
    | Some page => inr page
    | None => inl "LIMIT and OFFSET must not be negative"%string
    end.
Proof.
  intros Hne params n; unfold queryPhotos; cbn [placeholders].
  assert (Har : arityOK (numbered 0 toks ++ [n + 1; n + 2])
                  (params ++ [VInt l; VInt o]) = true).
  { rewrite <- (arityOK_numbered (params ++ [VInt l; VInt o])).
    rewrite numbered_app; cbn [numbered].
    rewrite (numbered_ext toks params) by (unfold params; rewrite length_map; reflexivity).
    subst n; do 4 f_equal; lia. }
  rewrite Har; cbn [negb].
  unfold params at 1; rewrite searchRows_tokens by assumption.
  subst n; rewrite bind_app.
  replace (Z.of_nat (List.length params) + 2)
    with (Z.of_nat (List.length (params ++ [VInt l])) + 1)
    by (rewrite length_app; simpl; lia).
  change (params ++ [VInt l; VInt o]) with (params ++ [VInt l] ++ [VInt o]).
  rewrite app_assoc, bind_app.
  reflexivity.
Qed.

(** Every clause of [Search] joins [users]: a photo whose owner has no row
    there satisfies none. *)
Lemma clauseMatch_has_owner (db : DB) (pat : str) (p : Photo) :
  clauseMatch db pat p = true ->
  exists u, In u (users db) /\ u_id u = OwnerID p.
Proof.
  unfold clauseMatch; intros H.
  apply existsb_exists in H as (u & Hu & H).
  apply andb_true_iff in H as [H _]; apply Z.eqb_eq in H.
  exists u; auto.
Qed.

(** C3, as the code has it.  For a query of ASCII text that keeps at least
    one token, all of them plain for [LIKE] and in lower case, on a store
    whose text is ASCII, whose tag names are in lower case and which accepts
    the two queries, the search finds exactly the photos whose owner has a
    row in [users] and in which every token is found (in the title, in the
    name of the owner or in the name of a tag, letter case ignored):
    [Total] counts them and [Photos] is the page of them, best score first
    and newest first among equal scores. *)
Theorem Search_intersection (pageNum : Z) (q : str) (st : Store) :
  let db := tables st in
  let toks := searchTokens q in
  q <> [] ->
  isASCII q = true ->
  toks <> [] ->
  (forall w, In w toks -> plain w /\ lowercase w) ->
  asciiTables db = true ->
  (forall t, In t (tags db) -> lowercase (Tag_Name t)) ->
  faults st CallSelectInt = None ->
  faults st CallSelect = None ->
  0 <= getOffset pageNum ->
  exists rows,
    NoDup rows
    /\ (forall p, In p rows
                  <-> In p (photos db)
                      /\ hasOwner db p
                      /\ forall w, In w toks -> tokenFound db w p)
    /\ Search pageNum q st
       = (Some (NewPhotoList
                  (firstn 12 (skipn (Z.to_nat (getOffset pageNum))
                                (orderByDesc [ByVotes; ByCreatedAt] rows)))
                  (Z.of_nat (List.length rows)) pageNum),
          None).
Proof.
  intros db toks Hq _ Hne Htoks _ Htags Hf1 Hf2 Hoff.
  exists (searchSet db toks); split; [apply searchSet_NoDup|]; split.
  - intros p; rewrite (searchSet_In db toks p Hne).
    split.
    + intros [Hp H]; split; [assumption|]; split.
      * destruct toks as [|w ws]; [congruence|].
        unfold hasOwner.
        apply (clauseMatch_has_owner db (pattern w)), H; left; reflexivity.
      * intros w Hw; destruct (Htoks w Hw) as [Hpl Hlo].
        apply clauseMatch_tokenFound; auto.
    + intros (Hp & _ & H); split; [assumption|].
      intros w Hw; destruct (Htoks w Hw) as [Hpl Hlo].
      apply clauseMatch_tokenFound; auto.
  - rewrite Search_by_tokens.
    destruct q as [|c q]; [congruence|]; cbn [isEmpty].
    fold toks; cbv zeta.
    unfold dbMap_SelectInt, dbMap_Select, failure.
    rewrite Hf1, Hf2; cbn [option_map].
    fold db.
    rewrite (queryInt_search db toks Hne).
    rewrite (queryPhotos_search db toks PageSize (getOffset pageNum) Hne).
    unfold limitOffset.
    replace (getOffset pageNum <? 0) with false by (symmetry; apply Z.ltb_ge; lia).
    reflexivity.
Qed.

Lemma Search_intersection_witness :
  exists rows,
    NoDup rows
    /\ (forall p, In p rows
                  <-> In p (photos Sample.db)
                      /\ hasOwner Sample.db p
                      /\ forall w, In w [lit "red"; lit "beach"] ->
                                   tokenFound Sample.db w p)
    /\ Search 1 (lit "red beach") Sample.store
       = (Some (NewPhotoList
                  (firstn 12 (skipn (Z.to_nat (getOffset 1))
                                (orderByDesc [ByVotes; ByCreatedAt] rows)))
                  (Z.of_nat (List.length rows)) 1),
          None).
Proof.
  apply (Search_intersection 1 (lit "red beach") Sample.store).
  - discriminate.
  - reflexivity.
  - discriminate.
  - intros w [<-|[<-|[]]]; split; reflexivity.
  - reflexivity.
  - intros t [<-|[]]; reflexivity.
  - reflexivity.
  - reflexivity.
  - discriminate.
Defined.

(** The example of the specification: a photo titled Red Sunset, tagged
    beach, owned by Dana. *)
Lemma Search_red_beach :
  (exists l, Search 1 (lit "red beach") Sample.store = (Some l, None)
             /\ map Title (Photos l) = [lit "Red Sunset"] /\ Total l = 1)
  /\ (exists l, Search 1 (lit "red mountain") Sample.store = (Some l, None)
                /\ Photos l = [] /\ Total l = 0).
Proof.
  split; eexists; (split; [vm_compute; reflexivity|]); split; reflexivity.
Qed.

Lemma substring_char (c : ascii) (s : str) : substring [c] s -> In c s.
Proof.
  intros (pre & post & ->); apply in_or_app; right; left; reflexivity.
Qed.

(** C3, as stated, fails.  A token is handed to [LIKE] as it is, so [_]
    stands for any character: the photo titled abcdef is found although
    nothing of it contains an underscore.  The tag name is compared as it is,
    without [UPPER]: the photo tagged beach is not found by BEACH.  And a
    query whose first piece is blank keeps no token and is an SQL error. *)
Lemma Search_token_not_substring :
  (exists l p,
     Search 1 (lit "_") Sample.store = (Some l, None)
     /\ In p (Photos l)
     /\ ~ (forall w, In w (searchTokens (lit "_")) -> tokenFound Sample.db w p))
  /\ (exists l p,
     Search 1 (lit "BEACH") Sample.store = (Some l, None)
     /\ Photos l = [] /\ Total l = 0
     /\ In p (photos Sample.db)
     /\ forall w, In w (searchTokens (lit "BEACH")) -> tokenFound Sample.db w p)
  /\ Search 1 (lit " ") Sample.store
     = (None, Some (PqError "syntax error at or near )")).
Proof.
  split; [|split].
  - eexists; exists (Sample.photo 2 10 200 "abcdef" 0 0).
    split; [vm_compute; reflexivity|].
    split; [left; reflexivity|].
    intros H.
    destruct (H (lit "_") (or_introl eq_refl))
      as (owner & (u & Hu & Hid & <-) & Hfound).
    destruct Hu as [<-|[<-|[]]]; [|discriminate].
    destruct Hfound as [Hc|[Hc|(name & (t & Ht & Hpt & _) & _)]].
    + apply substring_char in Hc.
      vm_compute in Hc; intuition discriminate.
    + apply substring_char in Hc.
      vm_compute in Hc; intuition discriminate.
    + destruct Hpt as [E|[]]; discriminate.
  - eexists; exists (Sample.photo 1 10 100 "Red Sunset" 0 0).
    split; [vm_compute; reflexivity|].
    split; [reflexivity|].
    split; [reflexivity|].
    split; [left; reflexivity|].
    intros w [<-|[]].
    exists (lit "Dana"); split.
    + exists {| u_id := 10; u_name := lit "Dana" |}; repeat split.
      left; reflexivity.
    + right; right; exists (lit "beach"); split.
      * exists {| Tag_ID := 1; Tag_Name := lit "beach" |}; repeat split;
          left; reflexivity.
      * exists [], []; reflexivity.
  - vm_compute; reflexivity.
Qed.

(** ** binary64 *)

Lemma digits2_bounds (p : positive) :
  2 ^ (Z.pos (digits2_pos p) - 1) <= Z.pos p < 2 ^ Z.pos (digits2_pos p).
Proof.
  induction p as [p IH|p IH|]; cbn [digits2_pos].
  - rewrite Pos2Z.inj_succ, (Pos2Z.inj_xI p).
    replace (Z.succ (Z.pos (digits2_pos p)) - 1)
      with (Z.succ (Z.pos (digits2_pos p) - 1)) by lia.
    rewrite !Z.pow_succ_r by lia.
    destruct IH as [IH1 IH2]; revert IH1 IH2.
    generalize (2 ^ (Z.pos (digits2_pos p) - 1)) (2 ^ Z.pos (digits2_pos p)).
    intros; lia.
  - rewrite Pos2Z.inj_succ, (Pos2Z.inj_xO p).
    replace (Z.succ (Z.pos (digits2_pos p)) - 1)
      with (Z.succ (Z.pos (digits2_pos p) - 1)) by lia.
    rewrite !Z.pow_succ_r by lia.
    destruct IH as [IH1 IH2]; revert IH1 IH2.
    generalize (2 ^ (Z.pos (digits2_pos p) - 1)) (2 ^ Z.pos (digits2_pos p)).
    intros; lia.
  - simpl; lia.
Qed.

Lemma digits2_unique (p : positive) (n : Z) :
  2 ^ (n - 1) <= Z.pos p < 2 ^ n -> Z.pos (digits2_pos p) = n.
Proof.
  intros [Hlo Hhi].
  pose proof (digits2_bounds p) as [Blo Bhi].
  assert (Hn : 0 < n).
  { destruct (Z.ltb_spec 0 n) as [|Hn]; [assumption|].
    destruct (Z.eq_dec n 0) as [->|]; [simpl in Hhi; lia|].
    rewrite Z.pow_neg_r in Hhi by lia; lia. }
  destruct (Z.lt_trichotomy (Z.pos (digits2_pos p)) n) as [H|[H|H]];
    [|assumption|].
  - assert (2 ^ Z.pos (digits2_pos p) <= 2 ^ (n - 1))
      by (apply Z.pow_le_mono_r; lia).
    lia.
  - assert (2 ^ n <= 2 ^ (Z.pos (digits2_pos p) - 1))
      by (apply Z.pow_le_mono_r; lia).
    lia.
Qed.

Lemma loc_of_shr_record_of_loc (m : Z) (l : location) :
  loc_of_shr_record (shr_record_of_loc m l) = l
  /\ shr_m (shr_record_of_loc m l) = m.
Proof. destruct l as [|[]]; split; reflexivity. Qed.

(** A mantissa of 53 digits with nothing to round is kept as it is. *)
Lemma binary_round_aux_canonical (s : bool) (m : positive) (e : Z) :
  Z.pos (digits2_pos m) = 53 -> -1074 <= e <= 971 ->
  binary_round_aux prec emax s (Z.pos m) e loc_Exact = S754_finite s m e.
Proof.
  intros Hd He.
  unfold binary_round_aux, shr_fexp, fexp, emin, prec, emax.
  cbn [Zdigits2 shr_record_of_loc]; rewrite Hd.
  replace (Z.max (53 + e - 53) (3 - 1024 - 53) - e) with 0 by lia.
  cbn [shr shr_m loc_of_shr_record round_nearest_even Zdigits2 shr_record_of_loc].
  rewrite Hd.
  replace (Z.max (53 + e - 53) (3 - 1024 - 53) - e) with 0 by lia.
  cbn [shr shr_m].
  replace (e <=? 1024 - 53) with true by (symmetry; apply Z.leb_le; lia).
  reflexivity.
Qed.

Lemma iter_xO (p : positive) (k : positive) :
  Z.pos (Pos.iter xO p k) = Z.pos p * 2 ^ Z.pos k.
Proof.
  induction k as [|k IH] using Pos.peano_ind.
  - simpl Pos.iter. rewrite (Pos2Z.inj_xO p). change (2 ^ 1) with 2. lia.
  - rewrite Pos.iter_succ, (Pos2Z.inj_xO (Pos.iter xO p k)), IH.
    rewrite Pos2Z.inj_succ, Z.pow_succ_r by lia. ring.
Qed.

Lemma pow2_split (a b : Z) : 0 <= a -> 0 <= b -> 2 ^ (a + b) = 2 ^ a * 2 ^ b.
Proof. intros; apply Z.pow_add_r; assumption. Qed.

(** The conversion of a positive integer of at most 53 binary digits is
    exact: the mantissa is the integer, shifted to 53 digits. *)
Lemma float64_of_int64_exact (p : positive) :
  let d := Z.pos (digits2_pos p) in
  d <= 53 ->
  exists m,
    float64_of_int64 (Z.pos p) = S754_finite false m (d - 53)
    /\ Z.pos m = Z.pos p * 2 ^ (53 - d)
    /\ Z.pos (digits2_pos m) = 53.
Proof.
  intros d Hd.
  assert (H0 : 0 < d) by (unfold d; lia).
  unfold float64_of_int64, binary_normalize, binary_round, shl_align.
  unfold fexp, emin, prec, emax; fold d.
  replace (Z.max (d + 0 - 53) (3 - 1024 - 53) - 0) with (d - 53) by lia.
  replace (Z.max (d + 0 - 53) (3 - 1024 - 53)) with (d - 53) by lia.
  pose proof (digits2_bounds p) as [Blo Bhi]; fold d in Blo, Bhi.
  destruct (d - 53) as [|k|k] eqn:Ek; [| lia |].
  - exists p; split; [|split].
    + apply binary_round_aux_canonical; [unfold d in *; lia | lia].
    + replace (53 - d) with 0 by lia; simpl; lia.
    + unfold d in *; lia.
  - assert (Hm : Z.pos (Pos.iter xO p k) = Z.pos p * 2 ^ (53 - d)).
    { rewrite iter_xO; do 2 f_equal; lia. }
    assert (Hdm : Z.pos (digits2_pos (Pos.iter xO p k)) = 53).
    { apply digits2_unique; rewrite Hm.
      assert (E1 : 2 ^ (53 - 1) = 2 ^ (d - 1) * 2 ^ (53 - d))
        by (rewrite <- pow2_split by lia; f_equal; lia).
      assert (E2 : 2 ^ 53 = 2 ^ d * 2 ^ (53 - d))
        by (rewrite <- pow2_split by lia; f_equal; lia).
      rewrite E1, E2.
      assert (0 < 2 ^ (53 - d)) by (apply Z.pow_pos_nonneg; lia).
      split; [apply Z.mul_le_mono_nonneg_r | apply Z.mul_lt_mono_pos_r]; lia. }
    exists (Pos.iter xO p k); split; [|split]; try assumption.
    apply binary_round_aux_canonical; [assumption | lia].
Qed.

Lemma float64_of_twelve :
  float64_of_int64 PageSize = S754_finite false 6755399441055744 (-49).
Proof. reflexivity. Qed.

Lemma shr_fexp_shift (a : positive) (e : Z) (l : location) :
  53 <= Z.pos (digits2_pos a) -> -1074 <= e ->
  shr_fexp prec emax (Z.pos a) e l
  = shr (shr_record_of_loc (Z.pos a) l) e (Z.pos (digits2_pos a) - 53).
Proof.
  intros Hd He; unfold shr_fexp, fexp, emin, prec, emax; cbn [Zdigits2].
  f_equal; lia.
Qed.

(** A mantissa of 53 digits, or 2^53 after a carry, settles without loss. *)
Lemma shr_fexp_settled (a : positive) (e' : Z) :
  2 ^ 52 <= Z.pos a <= 2 ^ 53 -> -1074 <= e' ->
  exists mrs m e,
    shr_fexp prec emax (Z.pos a) e' loc_Exact = (mrs, e)
    /\ shr_m mrs = Z.pos m
    /\ Z.pos m * 2 ^ (e - e') = Z.pos a
    /\ e' <= e <= e' + 1.
Proof.
  intros Ha He.
  assert (Hd53 : 53 <= Z.pos (digits2_pos a)).
  { destruct (Z.eq_dec (Z.pos a) (2 ^ 53)) as [E|E].
    - injection E as ->; discriminate.
    - rewrite (digits2_unique a 53); lia. }
  rewrite shr_fexp_shift by assumption.
  destruct (Z.eq_dec (Z.pos a) (2 ^ 53)) as [E|E].
  - injection E as ->.
    change (Z.pos (digits2_pos 9007199254740992) - 53) with 1.
    cbn [shr iter_pos shr_record_of_loc shr_1 orb].
    eexists _, _, _; split; [reflexivity|]; cbn [shr_m].
    split; [reflexivity|].
    replace (e' + 1 - e') with 1 by lia.
    split; [reflexivity | lia].
  - assert (Hd : Z.pos (digits2_pos a) = 53) by (apply digits2_unique; lia).
    rewrite Hd; cbn [Z.sub Z.add Z.opp Z.pos_sub shr shr_record_of_loc].
    change (53 - 53) with 0; cbn [shr].
    eexists _, a, _; split; [reflexivity|]; cbn [shr_m].
    split; [reflexivity|].
    replace (e' - e') with 0 by lia.
    split; [simpl; lia | lia].
Qed.

(** Rounding to nearest, ties to even, of a mantissa [q] of 53 or 54
    digits at exponent [ex]: the result, in units of [2^ex], is [q] when
    nothing is lost and lies between [q] and [q + 1] when the quotient was
    not exact. *)
Lemma binary_round_aux_nearest (s : bool) (q : positive) (ex : Z) (lx : location) :
  Z.pos (digits2_pos q) = 53 \/ Z.pos (digits2_pos q) = 54 ->
  -1074 <= ex <= 960 ->
  exists m e,
    binary_round_aux prec emax s (Z.pos q) ex lx = S754_finite s m e
    /\ ex <= e <= ex + 2
    /\ (lx = loc_Exact ->
        Z.pos (digits2_pos q) = 53 \/ Z.even (Z.pos q) = true ->
        Z.pos m * 2 ^ (e - ex) = Z.pos q)
    /\ (lx <> loc_Exact ->
        Z.pos q <= Z.pos m * 2 ^ (e - ex) <= Z.pos q + 1).
Proof.
  intros Hd Hex.
  pose proof (digits2_bounds q) as Hb.
  unfold binary_round_aux.
  rewrite shr_fexp_shift by lia.
  assert (Hfin : forall (mr : Z) (e' : Z) (k : Z),
    2 ^ 52 <= mr <= 2 ^ 53 -> (e' = ex /\ k = 1 \/ e' = ex + 1 /\ k = 2) ->
    exists m e,
      (let '(mrs'', e'') := shr_fexp prec emax mr e' loc_Exact in
       match shr_m mrs'' with
       | 0 => S754_zero s
       | Z.pos m => if e'' <=? emax - prec then S754_finite s m e''
                    else S754_infinity s
       | Z.neg _ => S754_nan
       end) = S754_finite s m e
      /\ ex <= e <= ex + 2
      /\ Z.pos m * 2 ^ (e - ex) = mr * k).
  { intros mr e' k Hmr He'.
    destruct mr as [|a|a]; try (simpl in Hmr; lia).
    destruct (shr_fexp_settled a e' Hmr) as (mrs & m & e & -> & Hm & Hv & He);
      [lia|].
    rewrite Hm.
    replace (e <=? emax - prec) with true
      by (symmetry; apply Z.leb_le; unfold emax, prec; lia).
    exists m, e; split; [reflexivity|]; split; [lia|].
    rewrite <- Hv.
    destruct He' as [[-> ->]|[-> ->]]; [ring|].
    replace (e - ex) with ((e - (ex + 1)) + 1) by lia.
    rewrite pow2_split by lia; change (2 ^ 1) with 2; ring. }
  destruct Hd as [Hd|Hd]; rewrite Hd in *.
  - change (53 - 53) with 0; cbn [shr].
    destruct (loc_of_shr_record_of_loc (Z.pos q) lx) as [-> ->].
    change (2 ^ (53 - 1)) with (2 ^ 52) in Hb.
    assert (Hr : Z.pos q <= round_nearest_even (Z.pos q) lx <= Z.pos q + 1
                 /\ (lx = loc_Exact -> round_nearest_even (Z.pos q) lx = Z.pos q)).
    { destruct lx as [|[]]; cbn [round_nearest_even];
        try destruct (Z.even (Z.pos q)); split; try lia; try discriminate; auto. }
    settle_rounding Hfin (round_nearest_even (Z.pos q) lx) ex 1.
    rewrite Hv; split; [intros Hl _; rewrite (proj2 Hr Hl); ring | intros _; lia].
  - change (54 - 53) with 1; cbn [shr iter_pos].
    change (2 ^ (54 - 1)) with (2 ^ 53) in Hb.
    assert (E54 : 2 ^ 54 = 2 * 2 ^ 53) by reflexivity.
    assert (E53 : 2 ^ 53 = 2 * 2 ^ 52) by reflexivity.
    destruct q as [q'|q'|]; [| |simpl in Hb; lia].
    + pose proof (Pos2Z.inj_xI q') as Eq.
      assert (Hq' : 2 ^ 52 <= Z.pos q' < 2 ^ 53) by lia.
      destruct lx as [|[]];
        cbn [shr_record_of_loc shr_1 orb shr_m loc_of_shr_record round_nearest_even].
      * destruct (Z.even (Z.pos q'));
          [settle_rounding Hfin (Z.pos q') (ex + 1) 2
          |settle_rounding Hfin (Z.pos q' + 1) (ex + 1) 2];
          (split; [intros _ [H|H]; [lia|discriminate] | congruence]).
      * settle_rounding Hfin (Z.pos q' + 1) (ex + 1) 2.
        split; [discriminate | intros _; lia].
      * settle_rounding Hfin (Z.pos q' + 1) (ex + 1) 2.
        split; [discriminate | intros _; lia].
      * settle_rounding Hfin (Z.pos q' + 1) (ex + 1) 2.
        split; [discriminate | intros _; lia].
    + pose proof (Pos2Z.inj_xO q') as Eq.
      assert (Hq' : 2 ^ 52 <= Z.pos q' < 2 ^ 53) by lia.
      destruct lx as [|[]];
        cbn [shr_record_of_loc shr_1 orb shr_m loc_of_shr_record round_nearest_even];
        settle_rounding Hfin (Z.pos q') (ex + 1) 2;
        (split; [intros; lia | intros; lia]).
Qed.

Lemma ceil_div_unique (a b c : Z) :
  0 < b -> b * (c - 1) < a <= b * c -> - ((- a) / b) = c.
Proof.
  intros Hb H.
  assert (E : (- a) / b = - c).
  { symmetry; apply (Z.div_unique (- a) b (- c) (b * c - a)); [left; lia | ring]. }
  rewrite E; ring.
Qed.

Lemma ceil_twelve (p : Z) : 12 * ((p + 11) / 12 - 1) < p <= 12 * ((p + 11) / 12).
Proof.
  pose proof (Z.div_mod (p + 11) 12 ltac:(lia)).
  pose proof (Z.mod_pos_bound (p + 11) 12 ltac:(lia)).
  lia.
Qed.

(** The page count read off a rounded quotient: [q] and [rho] are the
    quotient and remainder of [p * M] by 3, that is of [p / 12] in units of
    [1 / (4 * M)], and [W] is the rounded mantissa in the same units. *)
Lemma ceil_of_rounded_quotient (p M q rho W : Z) :
  0 < p -> 4 <= M ->
  p * M = 3 * q + rho -> 0 <= rho < 3 ->
  (rho = 0 -> W = q) ->
  (rho <> 0 -> q <= W <= q + 1) ->
  - ((- W) / (4 * M)) = (p + 11) / 12.
Proof.
  intros Hp HM Hq Hrho Hexact Hinexact.
  pose proof (ceil_twelve p) as [Clo Chi].
  set (C := (p + 11) / 12) in *.
  apply ceil_div_unique; [lia|].
  assert (H1 : M * (12 * (C - 1)) < M * p) by (apply Z.mul_lt_mono_pos_l; lia).
  assert (H2 : M * p <= M * (12 * C)) by (apply Z.mul_le_mono_nonneg_l; lia).
  destruct (Z.eq_dec rho 0) as [E|E].
  - rewrite (Hexact E); subst rho. lia.
  - specialize (Hinexact E).
    (* p is not a multiple of 12, so one unit of slack on either side. *)
    assert (H3 : M * (12 * (C - 1)) + M <= M * p).
    { replace (M * (12 * (C - 1)) + M) with (M * (12 * (C - 1) + 1)) by ring.
      apply Z.mul_le_mono_nonneg_l; [lia|].
      destruct (Z.eq_dec p (12 * (C - 1) + 0)); lia. }
    assert (H4 : M * p + M <= M * (12 * C) \/ p = 12 * C).
    { destruct (Z.eq_dec p (12 * C)) as [|Hne]; [right; assumption|left].
      replace (M * p + M) with (M * (p + 1)) by ring.
      apply Z.mul_le_mono_nonneg_l; lia. }
    destruct H4 as [H4|H4].
    + lia.
    + exfalso. rewrite H4 in Hq.
      assert (3 * (4 * C * M - q) = rho) by lia. lia.
Qed.

Lemma SFdiv_by_twelve (m1 : positive) (e1 : Z) :
  Z.pos (digits2_pos m1) = 53 -> -1000 <= e1 <= 0 ->
  fdiv (S754_finite false m1 e1) (S754_finite false 6755399441055744 (-49))
  = binary_round_aux prec emax false
      ((Z.pos m1 * 2 ^ 53) / 6755399441055744) (e1 - 4)
      (new_location 6755399441055744
         ((Z.pos m1 * 2 ^ 53) mod 6755399441055744)).
Proof.
  intros Hd He. unfold fdiv, SFdiv, SFdiv_core_binary. cbn [Zdigits2 xorb]. rewrite Hd.
  change (Z.pos (digits2_pos 6755399441055744)) with 53.
  unfold fexp, emin, prec, emax.
  replace (Z.min (Z.max (53 + e1 - (53 + -49) - 53) (3 - 1024 - 53)) (e1 - -49))
    with (e1 - 4) by lia.
  replace (e1 - -49 - (e1 - 4)) with 53 by lia.
  rewrite Z.shiftl_mul_pow2 by lia.
  unfold Z.div, Z.modulo.
  destruct (Z.div_eucl (Z.pos m1 * 2 ^ 53) 6755399441055744) as [q r].
  reflexivity.
Qed.

Lemma new_location_twelve (r : Z) :
  0 <= r ->
  new_location 6755399441055744 r = loc_Exact <-> r = 0.
Proof.
  intros Hr; unfold new_location.
  change (Z.even 6755399441055744) with true; cbv iota.
  unfold new_location_even.
  destruct (Z.eqb_spec r 0); split; intros; try reflexivity; try assumption;
    try discriminate; contradiction.
Qed.

(** For a total below 2^53 the page count is the exact ceiling. *)
Lemma numPages_exact (total : Z) :
  0 <= total < 2 ^ 53 ->
  int64_of_Ceil (fdiv (float64_of_int64 total) (float64_of_int64 PageSize))
  = (total + 11) / 12.
Proof.
  intros [H0 H53].
  destruct total as [|p|p]; [reflexivity | | lia].
  pose proof (digits2_bounds p) as [Blo Bhi].
  set (d := Z.pos (digits2_pos p)) in *.
  assert (Hd1 : 1 <= d) by (unfold d; lia).
  assert (Hd : d <= 53).
  { destruct (Z.le_gt_cases d 53) as [|Hgt]; [assumption|].
    assert (2 ^ 53 <= 2 ^ (d - 1)) by (apply Z.pow_le_mono_r; lia). lia. }
  destruct (float64_of_int64_exact p Hd) as (m1 & -> & Hm1 & Hdm1); fold d in Hm1.
  rewrite float64_of_twelve, SFdiv_by_twelve by (fold d; lia).
  (* The quotient of the two mantissas, in terms of p. *)
  set (M := 2 ^ (55 - d)).
  assert (HM : 4 <= M).
  { change 4 with (2 ^ 2); apply Z.pow_le_mono_r; lia. }
  assert (HMeven : M = 2 * 2 ^ (54 - d)).
  { unfold M; replace (55 - d) with (Z.succ (54 - d)) by lia.
    apply Z.pow_succ_r; lia. }
  assert (Ha : Z.pos m1 * 2 ^ 53 = (Z.pos p * M) * 2 ^ 51).
  { rewrite Hm1; unfold M.
    rewrite <- !Z.mul_assoc, <- !pow2_split by lia.
    do 2 f_equal; lia. }
  change 6755399441055744 with (3 * 2 ^ 51).
  rewrite Ha.
  rewrite Z.div_mul_cancel_r by (try apply Z.pow_nonzero; lia).
  rewrite Z.mul_mod_distr_r by (try apply Z.pow_nonzero; lia).
  pose proof (Z.div_mod (Z.pos p * M) 3 ltac:(lia)) as Hqr.
  pose proof (Z.mod_pos_bound (Z.pos p * M) 3 ltac:(lia)) as Hrho.
  set (q := Z.pos p * M / 3) in *.
  set (rho := (Z.pos p * M) mod 3) in *.
  (* 2^54 <= p * M < 2^55 *)
  assert (HpM : 2 ^ 54 <= Z.pos p * M < 2 ^ 55).
  { assert (E1 : 2 ^ 54 = 2 ^ (d - 1) * M)
      by (unfold M; rewrite <- pow2_split by lia; f_equal; lia).
    assert (E2 : 2 ^ 55 = 2 ^ d * M)
      by (unfold M; rewrite <- pow2_split by lia; f_equal; lia).
    rewrite E1, E2.
    split; [apply Z.mul_le_mono_nonneg_r | apply Z.mul_lt_mono_pos_r]; lia. }
  assert (Hq : 2 ^ 52 <= q < 2 ^ 54).
  { change (2 ^ 54) with 18014398509481984 in *.
    change (2 ^ 55) with 36028797018963968 in *.
    change (2 ^ 52) with 4503599627370496. lia. }
  destruct q as [|qp|qp] eqn:Eq; [simpl in Hq; lia | | lia].
  assert (Hdq : Z.pos (digits2_pos qp) = 53 \/ Z.pos (digits2_pos qp) = 54).
  { destruct (Z.lt_ge_cases (Z.pos qp) (2 ^ 53)).
    - left; apply digits2_unique; change (2 ^ (53 - 1)) with (2 ^ 52); lia.
    - right; apply digits2_unique; change (2 ^ (54 - 1)) with (2 ^ 53); lia. }
  fold d.
  destruct (binary_round_aux_nearest false qp (d - 53 - 4)
              (new_location (3 * 2 ^ 51) (rho * 2 ^ 51)) Hdq ltac:(lia))
    as (m & e & -> & He & Hexact & Hinexact).
  unfold int64_of_Ceil.
  replace (0 <=? e) with false by (symmetry; apply Z.leb_gt; lia).
  (* in units of 2^(d - 57) *)
  set (W := Z.pos m * 2 ^ (e - (d - 53 - 4))) in *.
  assert (HN : 4 * M = 2 ^ (- e) * 2 ^ (e - (d - 53 - 4))).
  { rewrite <- pow2_split by lia. unfold M.
    change 4 with (2 ^ 2); rewrite <- pow2_split by lia. f_equal; lia. }
  assert (Hc : - (- Z.pos m / 2 ^ (- e)) = - ((- W) / (4 * M))).
  { rewrite HN; unfold W.
    rewrite <- Z.mul_opp_l, Z.div_mul_cancel_r
      by (try apply Z.pow_nonzero; lia).
    reflexivity. }
  assert (Hloc : new_location (3 * 2 ^ 51) (rho * 2 ^ 51) = loc_Exact <-> rho = 0).
  { change (3 * 2 ^ 51) with 6755399441055744.
    rewrite new_location_twelve by (change (2 ^ 51) with 2251799813685248; lia).
    change (2 ^ 51) with 2251799813685248; lia. }
  assert (Hres : - ((- W) / (4 * M)) = (Z.pos p + 11) / 12).
  { apply (ceil_of_rounded_quotient (Z.pos p) M (Z.pos qp) rho W); try lia.
    - intros E; apply Hexact; [apply Hloc; assumption|].
      right. rewrite E in Hqr.
      assert (Ev : Z.pos qp = 2 * (Z.pos p * 2 ^ (54 - d) - Z.pos qp)).
      { rewrite HMeven in Hqr. lia. }
      rewrite Ev, Z.even_mul; reflexivity.
    - intros E; apply Hinexact; intros Hl; apply E, Hloc; assumption. }
  rewrite Hc, Hres.
  assert (Hrange : 0 <= (Z.pos p + 11) / 12 <= 2 ^ 53).
  { pose proof (ceil_twelve (Z.pos p)). lia. }
  unfold MinInt64, MaxInt64.
  replace (- 2 ^ 63 <=? (Z.pos p + 11) / 12) with true
    by (symmetry; apply Z.leb_le; change (2 ^ 63) with 9223372036854775808; lia).
  replace ((Z.pos p + 11) / 12 <=? 2 ^ 63 - 1) with true
    by (symmetry; apply Z.leb_le;
        change (2 ^ 63) with 9223372036854775808;
        change (2 ^ 53) with 9007199254740992 in Hrange; lia).
  reflexivity.
Qed.

(** ** Pagination *)

Lemma wrap64_in_range (z : Z) : MinInt64 <= z <= MaxInt64 -> wrap64 z = z.
Proof.
  unfold MinInt64, MaxInt64, wrap64.
  change (2 ^ 63) with 9223372036854775808.
  change (2 ^ 64) with 18446744073709551616.
  intros H; rewrite Z.mod_small by lia; lia.
Qed.

(** C5, as the code has it.  The page count is computed in binary64: it
    is the ceiling of [total / 12] for every total from 0 to below 2^53, and
    there it is 0 exactly when the total is 0.  The offset is computed in
    [int64]: it is [(pageNum - 1) * 12] whenever that product is an [int64],
    so the first page starts at 0 and a page number of 0 or less gives a
    negative offset, which is passed on. *)
Theorem pagination_arithmetic :
  (forall (photos : list Photo) (total page : Z),
     0 <= total < 2 ^ 53 ->
     let n := NumPages (NewPhotoList photos total page) in
     n = (total + 11) / 12
     /\ 12 * (n - 1) < total <= 12 * n
     /\ (n = 0 <-> total = 0))
  /\ (forall pageNum : Z,
        MinInt64 <= (pageNum - 1) * 12 <= MaxInt64 ->
        getOffset pageNum = (pageNum - 1) * 12
        /\ (pageNum <= 0 -> getOffset pageNum < 0))
  /\ getOffset 1 = 0.
Proof.
  split; [|split].
  - intros photos total page Ht n.
    assert (Hn : n = (total + 11) / 12)
      by (unfold n, NewPhotoList; cbn [NumPages]; apply numPages_exact; assumption).
    pose proof (ceil_twelve total) as Hc; rewrite <- Hn in Hc.
    split; [assumption|]; split; [assumption|]; lia.
  - intros pageNum H.
    assert (E : getOffset pageNum = (pageNum - 1) * 12).
    { unfold getOffset, mul64, sub64, PageSize.
      rewrite (wrap64_in_range (pageNum - 1))
        by (unfold MinInt64, MaxInt64 in *;
            change (2 ^ 63) with 9223372036854775808 in *; lia).
      apply wrap64_in_range; assumption. }
    split; [assumption | rewrite E; lia].
  - reflexivity.
Qed.

Lemma pagination_arithmetic_witness :
  (let n := NumPages (NewPhotoList [] 25 3) in
   n = (25 + 11) / 12 /\ 12 * (n - 1) < 25 <= 12 * n /\ (n = 0 <-> 25 = 0))
  /\ (getOffset 0 = (0 - 1) * 12 /\ (0 <= 0 -> getOffset 0 < 0)).
Proof.
  split.
  - apply (proj1 pagination_arithmetic [] 25 3).
    split; [discriminate | reflexivity].
  - apply (proj1 (proj2 pagination_arithmetic) 0).
    split; discriminate.
Defined.

(** C5, as stated, fails for large numbers.  A total of 2^53 + 5 is
    rounded to 2^53 + 4 by the conversion to binary64, and the page count is
    one short of the ceiling.  For page 2^62 the product wraps around and the
    offset is -12. *)
Lemma pagination_large_numbers :
  NumPages (NewPhotoList [] 9007199254740997 1) <> (9007199254740997 + 11) / 12
  /\ NumPages (NewPhotoList [] 9007199254740997 1) = 750599937895083
  /\ float64_of_int64 9007199254740997 = float64_of_int64 9007199254740996
  /\ getOffset (2 ^ 62) <> (2 ^ 62 - 1) * 12
  /\ getOffset (2 ^ 62) = -12.
Proof. repeat split; vm_compute; congruence. Qed.

(** * Further properties *)

(** ** What a tag statement leaves alone *)

Lemma setTables_same (st : Store) : setTables st (tables st) = st.
Proof. destruct st; reflexivity. Qed.

Lemma dbMap_Exec_keeps_photos (st st' : Store) (sql : Statement)
  (params : list Value) (err : option error) :
  dbMap_Exec st sql params = (err, st') ->
  photos (tables st') = photos (tables st)
  /\ users (tables st') = users (tables st)
  /\ photos_id_seq (tables st') = photos_id_seq (tables st)
  /\ faults st' = faults st /\ clock st' = clock st.
Proof.
  unfold dbMap_Exec.
  destruct (failure st CallExec); [intros H; injection H as _ <-; auto|].
  destruct (execute (tables st) sql params) as [msg|db] eqn:E;
    [intros H; injection H as _ <-; auto|].
  intros H; injection H as _ <-; cbn [tables setTables faults clock].
  unfold execute in E.
  destruct (negb _); [discriminate|].
  destruct sql; try (injection E as <-; auto).
  - destruct (bind params 1) as [[id|]|]; try discriminate.
    injection E as <-; auto.
  - destruct (bindAll params args) as [[|[id|s] vs]|]; try discriminate.
    destruct (texts vs); [|discriminate].
    injection E as <-; unfold add_tags.
    destruct (upsertTags _ _ _) as [[ids ts] next]; auto.
Qed.

Lemma UpdateTags_keeps_photos (photo : Photo) (st st' : Store)
  (err : option error) :
  UpdateTags photo st = (err, st') ->
  photos (tables st') = photos (tables st)
  /\ users (tables st') = users (tables st)
  /\ photos_id_seq (tables st') = photos_id_seq (tables st)
  /\ faults st' = faults st /\ clock st' = clock st.
Proof.
  rewrite UpdateTags_branches.
  destruct (tagLoop 0 (Tags photo) [1] [VInt (ID photo)] true) as [[a p] e].
  destruct (e && negb (ID photo =? 0)); apply dbMap_Exec_keeps_photos.
Qed.

Lemma find_last_row (rows : list Photo) (row : Photo) (id : Z) :
  (forall p, In p rows -> ID p <> id) -> ID row = id ->
  find (fun p => ID p =? id) (rows ++ [row]) = Some row.
Proof.
  intros Hn Hr; induction rows as [|r rows IH]; simpl.
  - apply Z.eqb_eq in Hr; rewrite Hr; reflexivity.
  - destruct (Z.eqb_spec (ID r) id) as [E|_].
    + elim (Hn r (or_introl eq_refl) E).
    + apply IH; intros p Hp; apply Hn; right; exact Hp.
Qed.

(** ** Insert, then look up *)

(** What a successful [Insert] has done: the key comes from the sequence
    and the creation time from the clock, whatever the argument carried in
    [ID] and [CreatedAt]; the other fields are the caller's; the row is the
    last of [photos]; and, the sequence being ahead of the keys, [Get] with
    the text of the new key returns that row, which carries no tags. *)
Theorem Insert_then_Get
  (photo photo' : Photo) (st st' : Store) (photoID : str) :
  Insert photo st = (photo', None, st') ->
  (forall p, In p (photos (tables st)) -> ID p <> photos_id_seq (tables st) + 1) ->
  int8in photoID = Some (ID photo') ->
  faults st CallGet = None ->
  photo' = withID (withCreatedAt photo (clock st)) (photos_id_seq (tables st) + 1)
  /\ photos (tables st') = photos (tables st) ++ [withTags photo' []]
  /\ Get photoID st' = (Some (withTags photo' []), None).
Proof.
  unfold Insert.
  destruct (dbMap_Begin st) as [e|t] eqn:Eb; [discriminate|].
  unfold dbMap_Begin in Eb; destruct (failure st CallBegin); [discriminate|].
  injection Eb as <-.
  unfold dbMap_Insert, PreInsert, Now; cbn [faults tables].
  unfold failure at 1; cbn [faults].
  destruct (option_map PqError (faults st CallInsert)); [discriminate|].
  cbn [insertPhoto tables].
  set (p1 := withID (withCreatedAt photo (clock st)) (photos_id_seq (tables st) + 1)).
  set (st1 := setTables _ _).
  destruct (UpdateTags p1 st1) as [[e|] st2] eqn:Eu; [discriminate|].
  destruct (UpdateTags_keeps_photos _ _ _ _ Eu) as (Hph & _ & _ & Hf & _).
  unfold Commit, failure.
  destruct (option_map PqError (faults st2 CallCommit)) eqn:Ec;
    [intros H; discriminate|].
  cbn [pending executeAll]; rewrite setTables_same.
  intros H; injection H as <- <-.
  intros Hfresh Hkey Hget.
  split; [reflexivity|].
  assert (Hrows : photos (tables st2)
                  = photos (tables st) ++ [withTags p1 []]).
  { rewrite Hph; reflexivity. }
  split; [exact Hrows|].
  unfold Get, dbMap_Get, failure.
  rewrite Hf; subst st1; cbn [faults setTables].
  rewrite Hget; cbn [option_map keyOfValue]; rewrite Hkey.
  unfold lookupPhoto; rewrite Hrows.
  rewrite (find_last_row _ (withTags p1 []) (ID p1)); auto.
Qed.

Lemma Insert_then_Get_witness :
  let photo := withTags (Sample.photo 77 10 5 "New" 0 0) [lit "Sea "; lit "Beach"] in
  exists photo' st',
    Insert photo Sample.store = (photo', None, st')
    /\ ID photo' = 3 /\ CreatedAt photo' = 1000
    /\ Get (lit "3") st' = (Some (withTags photo' []), None).
Proof.
  intros photo.
  eexists _, _; split; [vm_compute; reflexivity|].
  split; [reflexivity|]; split; [reflexivity|].
  eapply (Insert_then_Get photo _ Sample.store _ (lit "3")).
  - vm_compute; reflexivity.
  - simpl; intros p [<-|[<-|[]]]; discriminate.
  - reflexivity.
  - reflexivity.
Defined.

(** When the store refuses the [Commit], [Insert] returns that error, and
    yet the row and whatever the tag statement did are in the tables: they
    were written outside the transaction. *)
Theorem Insert_commit_refused
  (photo : Photo) (st st2 : Store) (msg : string) :
  let p1 := withID (withCreatedAt photo (clock st)) (photos_id_seq (tables st) + 1) in
  faults st CallBegin = None ->
  faults st CallInsert = None ->
  faults st CallCommit = Some msg ->
  UpdateTags p1 (snd (dbMap_Insert st photo)) = (None, st2) ->
  Insert photo st = (p1, Some (PqError msg), st2)
  /\ photos (tables st2) = photos (tables st) ++ [withTags p1 []].
Proof.
  intros p1 Hb Hi Hc.
  unfold Insert, dbMap_Begin, failure; rewrite Hb; cbn [option_map].
  unfold dbMap_Insert, PreInsert, Now, failure; cbn [faults tables].
  rewrite Hi; cbn [option_map insertPhoto snd tables].
  fold p1; intros Hu; rewrite Hu.
  destruct (UpdateTags_keeps_photos _ _ _ _ Hu) as (Hph & _ & _ & Hf & _).
  unfold Commit, failure; rewrite Hf; cbn [faults setTables].
  rewrite Hc; cbn [option_map].
  split; [reflexivity | rewrite Hph; reflexivity].
Qed.

Lemma Insert_commit_refused_witness :
  let st := {| tables := Sample.db; clock := 1000;
               faults := fun c => match c with
                                  | CallCommit => Some "server closed"%string
                                  | _ => None
                                  end |} in
  exists p1 st2,
    Insert (Sample.photo 0 10 0 "New" 0 0) st
    = (p1, Some (PqError "server closed"), st2)
    /\ photos (tables st2) = photos (tables st) ++ [withTags p1 []].
Proof.
  intros st; eexists _, _.
  eapply (Insert_commit_refused (Sample.photo 0 10 0 "New" 0 0) st).
  - reflexivity.
  - reflexivity.
  - reflexivity.
  - vm_compute; reflexivity.
Defined.

(** ** Get *)

(** [Get] with the text of a key that some row carries returns a row of
    [photos] with that key and no error; it is the first such row of the
    scan, so the row itself when keys are unique. *)
Theorem Get_found (photoID : str) (id : Z) (st : Store) (row : Photo) :
  int8in photoID = Some id ->
  faults st CallGet = None ->
  In row (photos (tables st)) -> ID row = id ->
  exists p,
    Get photoID st = (Some p, None)
    /\ In p (photos (tables st)) /\ ID p = id
    /\ ((forall r, In r (photos (tables st)) -> ID r = id -> r = row) -> p = row).
Proof.
  intros Hkey Hf Hin Hid.
  unfold Get, dbMap_Get, failure; rewrite Hf.
  cbn [option_map keyOfValue]; rewrite Hkey; unfold lookupPhoto.
  destruct (find (fun p => ID p =? id) (photos (tables st))) as [p|] eqn:E.
  - apply find_some in E as [Hp Hpid]; apply Z.eqb_eq in Hpid.
    exists p; repeat split; auto.
  - pose proof (find_none _ _ E row Hin) as Hno; cbv beta in Hno.
    apply Z.eqb_eq in Hid; congruence.
Qed.

Lemma Get_found_witness :
  exists p,
    Get (lit " 2") Sample.store = (Some p, None)
    /\ In p (photos (tables Sample.store)) /\ ID p = 2
    /\ ((forall r, In r (photos (tables Sample.store)) -> ID r = 2 ->
         r = Sample.photo 2 10 200 "abcdef" 0 0) ->
        p = Sample.photo 2 10 200 "abcdef" 0 0).
Proof.
  apply (Get_found (lit " 2") 2 Sample.store (Sample.photo 2 10 200 "abcdef" 0 0)).
  - reflexivity.
  - reflexivity.
  - right; left; reflexivity.
  - reflexivity.
Defined.

(** ** Update *)

Lemma map_unchanged {A : Type} (f : A -> A) (l : list A) :
  (forall x, In x l -> f x = x) -> map f l = l.
Proof.
  induction l as [|a l IH]; intros H; simpl; [reflexivity|].
  rewrite (H a (or_introl eq_refl)), IH; [reflexivity|].
  intros x Hx; apply H; right; exact Hx.
Qed.

(** [Update] writes the columns of [photos] and nothing else: whatever
    [photo.Tags] holds, the tags and their associations are what they were,
    and so are the users, the rows with another key, and the number and
    order of the rows. *)
Theorem Update_leaves_tags_and_other_rows
  (photo : Photo) (st st' : Store) (err : option error) :
  Update photo st = (err, st') ->
  tags (tables st') = tags (tables st)
  /\ photo_tags (tables st') = photo_tags (tables st)
  /\ users (tables st') = users (tables st)
  /\ map ID (photos (tables st')) = map ID (photos (tables st))
  /\ filter (fun r => negb (ID r =? ID photo)) (photos (tables st'))
     = filter (fun r => negb (ID r =? ID photo)) (photos (tables st)).
Proof.
  unfold Update, dbMap_Update.
  destruct (failure st CallExec);
    [intros H; injection H as _ <-; repeat split|].
  cbn [updatePhoto]; intros H; injection H as _ <-; cbn [tables setTables].
  cbn [tags photo_tags users photos].
  repeat split.
  - rewrite map_map; apply map_ext_in; intros r _.
    destruct (Z.eqb_spec (ID r) (ID photo)) as [E|_]; [symmetry; exact E|reflexivity].
  - induction (photos (tables st)) as [|r l IH]; simpl; [reflexivity|].
    destruct (Z.eqb_spec (ID r) (ID photo)) as [E|E]; cbn [ID withTags negb].
    + rewrite Z.eqb_refl; exact IH.
    + apply Z.eqb_neq in E; rewrite E; cbn [negb]; f_equal; exact IH.
Qed.

Lemma Update_leaves_tags_and_other_rows_witness :
  let photo := withTags (Sample.photo 1 11 7 "Renamed" 3 1) [lit "x"] in
  exists st',
    Update photo Sample.store = (None, st')
    /\ tags (tables st') = tags (tables Sample.store)
    /\ photo_tags (tables st') = photo_tags (tables Sample.store)
    /\ users (tables st') = users (tables Sample.store)
    /\ map ID (photos (tables st')) = map ID (photos (tables Sample.store))
    /\ filter (fun r => negb (ID r =? ID photo)) (photos (tables st'))
       = filter (fun r => negb (ID r =? ID photo)) (photos (tables Sample.store)).
Proof.
  intros photo; eexists; split; [reflexivity|].
  apply (Update_leaves_tags_and_other_rows photo Sample.store _ None).
  reflexivity.
Defined.

(** [Update] of a photo whose key no row carries reports success and
    changes nothing: the number of rows the statement hit is dropped. *)
Theorem Update_absent_key_is_silent (photo : Photo) (st : Store) :
  faults st CallExec = None ->
  (forall r, In r (photos (tables st)) -> ID r <> ID photo) ->
  Update photo st = (None, st).
Proof.
  intros Hf Habs; unfold Update, dbMap_Update, failure; rewrite Hf.
  cbn [option_map updatePhoto]; f_equal.
  rewrite map_unchanged.
  - destruct st as [[ph us ts pts s1 s2] c f]; reflexivity.
  - intros r Hr; apply Habs in Hr; apply Z.eqb_neq in Hr; rewrite Hr; reflexivity.
Qed.

Lemma Update_absent_key_is_silent_witness :
  Update (Sample.photo 9 10 0 "Nine" 1 0) Sample.store = (None, Sample.store).
Proof.
  apply Update_absent_key_is_silent.
  - reflexivity.
  - simpl; intros r [<-|[<-|[]]]; discriminate.
Defined.

(** [Update], then [Get]: when a row carries the key and the store accepts
    the statement, [Get] with the text of the key returns the columns just
    written, without tags; [CreatedAt] and [OwnerID] are written like the
    rest. *)
Theorem Update_then_Get
  (photo : Photo) (st : Store) (photoID : str) :
  faults st CallExec = None ->
  faults st CallGet = None ->
  int8in photoID = Some (ID photo) ->
  (exists r, In r (photos (tables st)) /\ ID r = ID photo) ->
  exists st',
    Update photo st = (None, st')
    /\ Get photoID st' = (Some (withTags photo []), None).
Proof.
  intros Hf Hg Hkey (r & Hr & Hid).
  unfold Update, dbMap_Update, failure; rewrite Hf.
  cbn [option_map updatePhoto].
  eexists; split; [reflexivity|].
  unfold Get, dbMap_Get, failure; cbn [faults setTables tables].
  rewrite Hg; cbn [option_map keyOfValue]; rewrite Hkey.
  unfold lookupPhoto; cbn [photos].
  assert (E : find (fun p => ID p =? ID photo)
                (map (fun r => if ID r =? ID photo then withTags photo [] else r)
                     (photos (tables st)))
              = Some (withTags photo [])).
  { induction (photos (tables st)) as [|x l IH]; [destruct Hr|].
    simpl; destruct (Z.eqb_spec (ID x) (ID photo)) as [E|E].
    - cbn [ID withTags]; rewrite Z.eqb_refl; reflexivity.
    - apply Z.eqb_neq in E; rewrite E.
      destruct Hr as [->|Hr]; [apply Z.eqb_neq in E; contradiction|].
      apply IH; exact Hr. }
  rewrite E; reflexivity.
Qed.

Lemma Update_then_Get_witness :
  exists st',
    Update (withTags (Sample.photo 2 11 7 "Renamed" 3 1) [lit "x"]) Sample.store
    = (None, st')
    /\ Get (lit "2") st' = (Some (Sample.photo 2 11 7 "Renamed" 3 1), None).
Proof.
  apply (Update_then_Get (withTags (Sample.photo 2 11 7 "Renamed" 3 1) [lit "x"])
           Sample.store (lit "2")).
  - reflexivity.
  - reflexivity.
  - reflexivity.
  - exists (Sample.photo 2 10 200 "abcdef" 0 0); split;
      [right; left; reflexivity | reflexivity].
Defined.

(** ** Delete *)

(** [Delete] launches the cleaning of the file named in its argument as
    soon as [Begin] has succeeded, before the statement runs: also when the
    statement then fails and the row stays, and whether or not a row carries
    the key.  When [Begin] fails nothing is launched and nothing changes. *)
Theorem Delete_launches_cleaning (photo : Photo) (st : Store) :
  (faults st CallBegin = None ->
   snd (PhotoManager_Delete photo st) = [Filename photo])
  /\ (forall msg, faults st CallBegin = None -> faults st CallExec = Some msg ->
      PhotoManager_Delete photo st = (Some (PqError msg), st, [Filename photo]))
  /\ (forall msg, faults st CallBegin = Some msg ->
      PhotoManager_Delete photo st = (Some (PqError msg), st, [])).
Proof.
  unfold PhotoManager_Delete, dbMap_Begin, dbMap_Delete, PreDelete, failure.
  repeat split.
  - intros Hb; rewrite Hb; cbn [option_map].
    destruct (faults st CallExec); cbn [option_map deletePhoto]; [reflexivity|].
    destruct (Commit _ _); reflexivity.
  - intros msg Hb He; rewrite Hb, He; reflexivity.
  - intros msg Hb; rewrite Hb; reflexivity.
Qed.

Lemma Delete_launches_cleaning_witness :
  snd (PhotoManager_Delete (Sample.photo 9 10 0 "Nine" 0 0) Sample.store)
  = [lit "f.jpg"]
  /\ PhotoManager_Delete (Sample.photo 1 10 100 "Red Sunset" 0 0)
       Sample.storeExecDown
     = (Some (PqError "connection reset"), Sample.storeExecDown, [lit "f.jpg"]).
Proof.
  split.
  - apply (proj1 (Delete_launches_cleaning (Sample.photo 9 10 0 "Nine" 0 0)
                    Sample.store)); reflexivity.
  - apply (proj1 (proj2 (Delete_launches_cleaning
                           (Sample.photo 1 10 100 "Red Sunset" 0 0)
                           Sample.storeExecDown))); reflexivity.
Defined.

(** [Delete] on a store that accepts the calls: no row with the key is
    left, the other rows stay in their order, the cleaning is launched, and
    [Get] with the text of the key then finds nothing. *)
Theorem Delete_then_Get (photo : Photo) (st : Store) (photoID : str) :
  faults st CallBegin = None ->
  faults st CallExec = None ->
  faults st CallCommit = None ->
  faults st CallGet = None ->
  int8in photoID = Some (ID photo) ->
  exists st',
    PhotoManager_Delete photo st = (None, st', [Filename photo])
    /\ photos (tables st')
       = filter (fun r => negb (ID r =? ID photo)) (photos (tables st))
    /\ (forall r, In r (photos (tables st'))
                  <-> In r (photos (tables st)) /\ ID r <> ID photo)
    /\ Get photoID st' = (None, None).
Proof.
  intros Hb He Hc Hg Hkey.
  unfold PhotoManager_Delete, dbMap_Begin, dbMap_Delete, PreDelete, failure.
  rewrite Hb, He; cbn [option_map deletePhoto].
  unfold Commit, failure; cbn [faults setTables].
  rewrite Hc; cbn [option_map pending executeAll tables].
  eexists; split; [reflexivity|]; cbn [tables setTables photos].
  split; [reflexivity|].
  assert (Hin : forall r,
            In r (filter (fun r => negb (ID r =? ID photo)) (photos (tables st)))
            <-> In r (photos (tables st)) /\ ID r <> ID photo).
  { intros r; rewrite filter_In, negb_true_iff, Z.eqb_neq; tauto. }
  split; [exact Hin|].
  unfold Get, dbMap_Get, failure; cbn [faults setTables].
  rewrite Hg; cbn [option_map keyOfValue]; rewrite Hkey.
  rewrite lookupPhoto_absent; [reflexivity|].
  cbn [tables photos]; intros p Hp; apply Hin in Hp; tauto.
Qed.

Lemma Delete_then_Get_witness :
  exists st',
    PhotoManager_Delete (Sample.photo 1 10 100 "Red Sunset" 0 0) Sample.store
    = (None, st', [lit "f.jpg"])
    /\ photos (tables st')
       = filter (fun r => negb (ID r =? 1)) (photos (tables Sample.store))
    /\ (forall r, In r (photos (tables st'))
                  <-> In r (photos (tables Sample.store)) /\ ID r <> 1)
    /\ Get (lit "1") st' = (None, None).
Proof.
  apply (Delete_then_Get (Sample.photo 1 10 100 "Red Sunset" 0 0) Sample.store
           (lit "1")); reflexivity.
Defined.

(** When the store refuses the [Commit], [Delete] returns that error, and
    yet the row is gone and the cleaning is launched: the statement ran
    outside the transaction. *)
Theorem Delete_commit_refused (photo : Photo) (st : Store) (msg : string) :
  faults st CallBegin = None ->
  faults st CallExec = None ->
  faults st CallCommit = Some msg ->
  exists st',
    PhotoManager_Delete photo st = (Some (PqError msg), st', [Filename photo])
    /\ forall r, In r (photos (tables st')) -> ID r <> ID photo.
Proof.
  intros Hb He Hc.
  unfold PhotoManager_Delete, dbMap_Begin, dbMap_Delete, PreDelete, failure.
  rewrite Hb, He; cbn [option_map deletePhoto].
  unfold Commit, failure; cbn [faults setTables].
  rewrite Hc; cbn [option_map].
  eexists; split; [reflexivity|]; cbn [tables setTables photos].
  intros r Hr; apply filter_In in Hr as [_ Hr].
  apply negb_true_iff, Z.eqb_neq in Hr; exact Hr.
Qed.

Lemma Delete_commit_refused_witness :
  let st := {| tables := Sample.db; clock := 1000;
               faults := fun c => match c with
                                  | CallCommit => Some "server closed"%string
                                  | _ => None
                                  end |} in
  exists st',
    PhotoManager_Delete (Sample.photo 1 10 100 "Red Sunset" 0 0) st
    = (Some (PqError "server closed"), st', [lit "f.jpg"])
    /\ forall r, In r (photos (tables st')) -> ID r <> 1.
Proof.
  intros st.
  apply (Delete_commit_refused (Sample.photo 1 10 100 "Red Sunset" 0 0) st);
    reflexivity.
Defined.

(** ** The placeholders of the tag statement *)

Lemma tagLoop_args (names : list str) :
  forall i args params e,
    fst (fst (tagLoop i names args params e)) = args ++ tagPlaceholders i names.
Proof.
  induction names as [|n names IH]; intros i args params e; simpl.
  - rewrite app_nil_r; reflexivity.
  - destruct (isEmpty (TrimSpace n)); simpl.
    + apply IH.
    + rewrite IH, <- app_assoc; reflexivity.
Qed.

Lemma tagLoop_result (names : list str) (id : Z) :
  tagLoop 0 names [1] [VInt id] true
  = (1 :: tagPlaceholders 0 names,
     VInt id :: map VStr (normalizeTags names),
     match normalizeTags names with [] => true | _ :: _ => false end).
Proof.
  pose proof (tagLoop_args names 0 [1] [VInt id] true) as Ha.
  destruct (tagLoop_params names 0 [1] [VInt id] true) as (args' & E & _).
  rewrite E in Ha |- *; cbn [fst] in Ha; subst args'; reflexivity.
Qed.

Lemma normalizeTags_cons (n : str) (names : list str) :
  normalizeTags (n :: names)
  = if isEmpty (TrimSpace n) then normalizeTags names
    else ToLower (TrimSpace n) :: normalizeTags names.
Proof. unfold normalizeTags; simpl; destruct (isEmpty (TrimSpace n)); reflexivity. Qed.

Lemma normalizeTags_app (a b : list str) :
  normalizeTags (a ++ b) = normalizeTags a ++ normalizeTags b.
Proof.
  unfold normalizeTags; rewrite map_app, filter_app, map_app; reflexivity.
Qed.

Lemma normalizeTags_length (names : list str) :
  (List.length (normalizeTags names) <= List.length names)%nat.
Proof.
  induction names as [|n names IH]; [simpl; lia|].
  rewrite normalizeTags_cons; destruct (isEmpty (TrimSpace n)); simpl; lia.
Qed.

Lemma tagPlaceholders_app (a b : list str) :
  forall i,
    tagPlaceholders i (a ++ b)
    = tagPlaceholders i a ++ tagPlaceholders (i + Z.of_nat (List.length a)) b.
Proof.
  induction a as [|n a IH]; intros i; simpl.
  - f_equal; lia.
  - rewrite IH.
    replace (i + 1 + Z.of_nat (List.length a))
      with (i + Z.pos (Pos.of_succ_nat (List.length a))) by lia.
    destruct (isEmpty (TrimSpace n)); reflexivity.
Qed.

(** The placeholder of the last name kept is at least one more than the
    number of names kept, counted from [i]. *)
Lemma tagPlaceholders_last (names : list str) :
  forall i,
    normalizeTags names <> [] ->
    exists k, In k (tagPlaceholders i names)
              /\ i + 1 + Z.of_nat (List.length (normalizeTags names)) <= k.
Proof.
  induction names as [|n names IH]; intros i Hne; [elim Hne; reflexivity|].
  rewrite normalizeTags_cons in Hne |- *; simpl tagPlaceholders.
  destruct (normalizeTags names) as [|x xs] eqn:En.
  - destruct (isEmpty (TrimSpace n)); [elim Hne; reflexivity|].
    exists (i + 2); split; [left; reflexivity | simpl; lia].
  - destruct (IH (i + 1)) as (k & Hk & Hle); [discriminate|].
    exists k; destruct (isEmpty (TrimSpace n)); simpl in *; split; auto; lia.
Qed.

Lemma tagPlaceholders_all_kept (names : list str) :
  forall i,
    (forall n, In n names -> ~ blank n) ->
    tagPlaceholders i names = numbered (i + 1) names.
Proof.
  unfold blank; induction names as [|n names IH]; intros i H; simpl; [reflexivity|].
  destruct (isEmpty (TrimSpace n)) eqn:E.
  - apply isEmpty_true in E; elim (H n (or_introl eq_refl) E).
  - rewrite IH by (intros x Hx; apply H; right; exact Hx).
    f_equal; lia.
Qed.

Lemma tagPlaceholders_all_blank (names : list str) :
  forall i, (forall n, In n names -> blank n) -> tagPlaceholders i names = [].
Proof.
  unfold blank; induction names as [|n names IH]; intros i H; simpl; [reflexivity|].
  rewrite (H n (or_introl eq_refl)); simpl.
  apply IH; intros x Hx; apply H; right; exact Hx.
Qed.

Lemma normalizeTags_all_blank (names : list str) :
  (forall n, In n names -> blank n) -> normalizeTags names = [].
Proof.
  unfold blank; induction names as [|n names IH]; intros H; [reflexivity|].
  rewrite normalizeTags_cons, (H n (or_introl eq_refl)); simpl.
  apply IH; intros x Hx; apply H; right; exact Hx.
Qed.

(** The placeholder of a tag is numbered by its index in [photo.Tags], not
    by the names kept so far.  So when, among names of ASCII text, a blank
    name comes before a name that is kept, the statement names a parameter
    beyond those supplied: the store refuses it, [UpdateTags] returns an
    error and nothing changes. *)
Theorem UpdateTags_blank_before_name_refused
  (photo : Photo) (st : Store) (before after : list str) (b : str) :
  forallb isASCII (Tags photo) = true ->
  Tags photo = before ++ b :: after ->
  blank b ->
  normalizeTags after <> [] ->
  exists err, UpdateTags photo st = (Some err, st).
Proof.
  intros _ Ht Hb Hafter.
  rewrite UpdateTags_branches; rewrite tagLoop_result, Ht.
  assert (Hnorm : normalizeTags (before ++ b :: after)
                  = normalizeTags before ++ normalizeTags after).
  { rewrite normalizeTags_app, normalizeTags_cons, Hb; reflexivity. }
  rewrite Hnorm.
  destruct (normalizeTags before ++ normalizeTags after) as [|x xs] eqn:En.
  { apply app_eq_nil in En as [_ En]; contradiction. }
  rewrite <- En; cbn [andb].
  unfold dbMap_Exec.
  destruct (failure st CallExec) as [e|]; [exists e; reflexivity|].
  assert (Har : arityOK (placeholders (AddTags (1 :: tagPlaceholders 0 (before ++ b :: after))))
                  (VInt (ID photo) :: map VStr (normalizeTags before ++ normalizeTags after))
                = false).
  { cbn [placeholders]; unfold arityOK.
    apply andb_false_iff; left.
    destruct (tagPlaceholders_last after (0 + Z.of_nat (List.length (before ++ [b]))) Hafter)
      as (k & Hk & Hle).
    apply not_true_is_false; intros Hall.
    rewrite forallb_forall in Hall.
    assert (Hin : In k (1 :: tagPlaceholders 0 (before ++ b :: after))).
    { right.
      replace (before ++ b :: after) with ((before ++ [b]) ++ after)
        by (rewrite <- app_assoc; reflexivity).
      rewrite tagPlaceholders_app; apply in_or_app; right; exact Hk. }
    apply Hall in Hin; apply andb_true_iff in Hin as [_ Hin].
    apply Z.leb_le in Hin.
    pose proof (normalizeTags_length before).
    cbn [List.length] in Hin; rewrite length_map, !length_app in *.
    cbn [List.length] in *; lia. }
  unfold execute; rewrite Har; cbn [negb].
  eexists; reflexivity.
Qed.

Lemma UpdateTags_blank_before_name_refused_witness :
  exists err,
    UpdateTags (withTags (Sample.photo 1 10 100 "Red Sunset" 0 0)
                  [lit "sea"; lit "  "; lit "Sun"]) Sample.store
    = (Some err, Sample.store).
Proof.
  apply (UpdateTags_blank_before_name_refused _ Sample.store
           [lit "sea"] [lit "Sun"] (lit "  ")).
  - reflexivity.
  - reflexivity.
  - reflexivity.
  - discriminate.
Defined.

(** When the names, of ASCII text, that are kept all come before the blank
    ones, and there is a name or the photo is new, the statement is
    [SELECT add_tags($1,...,$n)] with the photo id and then the names,
    trimmed and in lower case, in the order given; the store accepts the
    parameters and calls the procedure with exactly those names. *)
Theorem UpdateTags_names_first
  (photo : Photo) (st : Store) (names blanks : list str) :
  forallb isASCII (Tags photo) = true ->
  Tags photo = names ++ blanks ->
  (forall n, In n names -> ~ blank n) ->
  (forall n, In n blanks -> blank n) ->
  names <> [] \/ ID photo = 0 ->
  let params := VInt (ID photo)
                :: map (fun n => VStr (ToLower (TrimSpace n))) names in
  UpdateTags photo st = dbMap_Exec st (AddTags (numbered 0 params)) params
  /\ execute (tables st) (AddTags (numbered 0 params)) params
     = inr (add_tags (tables st) (ID photo)
              (map (fun n => ToLower (TrimSpace n)) names)).
Proof.
  intros _ Ht Hnames Hblanks Hcase params.
  assert (Hnorm : normalizeTags (Tags photo)
                  = map (fun n => ToLower (TrimSpace n)) names).
  { rewrite Ht, normalizeTags_app, (normalizeTags_all_blank blanks Hblanks),
      app_nil_r.
    clear Ht Hcase params; induction names as [|n names IH]; [reflexivity|].
    rewrite normalizeTags_cons.
    destruct (isEmpty (TrimSpace n)) eqn:E.
    - apply isEmpty_true in E; elim (Hnames n (or_introl eq_refl) E).
    - cbn [map]; f_equal; apply IH; intros x Hx; apply Hnames; right; exact Hx. }
  assert (Hargs : 1 :: tagPlaceholders 0 (Tags photo) = numbered 0 params).
  { rewrite Ht, tagPlaceholders_app, (tagPlaceholders_all_blank blanks),
      app_nil_r by assumption.
    rewrite tagPlaceholders_all_kept by assumption.
    unfold params; cbn [numbered]; f_equal.
    apply numbered_ext; rewrite length_map; reflexivity. }
  assert (Hparams : VInt (ID photo) :: map VStr (normalizeTags (Tags photo)) = params).
  { rewrite Hnorm; unfold params; rewrite map_map; reflexivity. }
  split.
  - rewrite UpdateTags_branches; rewrite tagLoop_result, Hargs, Hparams, Hnorm.
    destruct Hcase as [Hne|Hid].
    + destruct names; [congruence|reflexivity].
    + rewrite Hid, andb_false_r; reflexivity.
  - unfold execute; cbn [placeholders].
    rewrite arityOK_numbered; cbn [negb].
    pose proof (bindAll_numbered params [] []) as Hb.
    cbn [app List.length Z.of_nat] in Hb; rewrite app_nil_r in Hb; rewrite Hb.
    unfold params at 1; cbv iota.
    replace (texts (map (fun n => VStr (ToLower (TrimSpace n))) names))
      with (Some (map (fun n => ToLower (TrimSpace n)) names)); [reflexivity|].
    clear; induction names as [|n names IH]; simpl; [reflexivity|].
    rewrite <- IH; reflexivity.
Qed.

Lemma UpdateTags_names_first_witness :
  let photo := withTags (Sample.photo 1 10 100 "Red Sunset" 0 0)
                 [lit " Sea"; lit "SUN"; lit " "] in
  let params := [VInt 1; VStr (lit "sea"); VStr (lit "sun")] in
  UpdateTags photo Sample.store
  = dbMap_Exec Sample.store (AddTags [1; 2; 3]) params
  /\ execute Sample.db (AddTags [1; 2; 3]) params
     = inr (add_tags Sample.db 1 [lit "sea"; lit "sun"]).
Proof.
  intros photo params.
  apply (UpdateTags_names_first photo Sample.store [lit " Sea"; lit "SUN"] [lit " "]).
  - reflexivity.
  - reflexivity.
  - intros n [<-|[<-|[]]]; discriminate.
  - intros n [<-|[]]; reflexivity.
  - left; discriminate.
Defined.

(** ** GetDetail *)

Lemma queryDetail_In (db : DB) (id : Z) (row : Photo) (name : str) :
  In (row, name) (queryDetail db id)
  <-> In row (photos db) /\ ID row = id /\ ownerNamed db row name.
Proof.
  unfold queryDetail, ownerNamed; rewrite in_flat_map; split.
  - intros (p & Hp & Hin).
    apply filter_In in Hp as [Hp Hid]; apply Z.eqb_eq in Hid.
    apply in_map_iff in Hin as (u & E & Hu); injection E as <- <-.
    apply filter_In in Hu as [Hu Ho]; apply Z.eqb_eq in Ho.
    repeat split; auto; exists u; auto.
  - intros (Hp & Hid & u & Hu & Ho & <-).
    exists row; split; [apply filter_In; split; [|apply Z.eqb_eq]; auto|].
    apply in_map_iff; exists u; split; [reflexivity|].
    apply filter_In; split; [|apply Z.eqb_eq]; auto.
Qed.

Lemma queryTags_In (db : DB) (row : Photo) (name : str) :
  In name (map Tag_Name (queryTags db (ID row))) <-> taggedWith db row name.
Proof.
  unfold queryTags, taggedWith; rewrite in_map_iff; split.
  - intros (t & <- & Hin).
    apply in_flat_map in Hin as (t' & Ht' & Hin).
    apply in_map_iff in Hin as ([a b] & E & Hpt).
    apply filter_In in Hpt as [Hpt H].
    apply andb_true_iff in H as [Hb Ha]; simpl in Ha, Hb.
    apply Z.eqb_eq in Ha, Hb; subst.
    exists t; auto.
  - intros (t & Ht & Hpt & <-).
    exists t; split; [reflexivity|].
    apply in_flat_map; exists t; split; [assumption|].
    apply in_map_iff; exists (ID row, Tag_ID t); split; [reflexivity|].
    apply filter_In; split; [assumption|]; simpl.
    rewrite !Z.eqb_refl; reflexivity.
Qed.

Lemma dbMap_SelectTags_byPhoto (st : Store) (id : Z) :
  dbMap_SelectTags st TagsByPhoto [VInt id]
  = match failure st CallSelect with
    | Some e => ([], Some e)
    | None => (queryTags (tables st) id, None)
    end.
Proof. unfold dbMap_SelectTags; destruct (failure st CallSelect); reflexivity. Qed.

(** What [GetDetail] returns when it returns a detail and no error: a row
    of [photos] with the key, the name of its owner's row, and as tags the
    names of exactly the tags associated with the photo, after whatever the
    row itself carried. *)
Theorem GetDetail_found
  (photoID : str) (id : Z) (user : option User) (st : Store) (d : PhotoDetail) :
  int8in photoID = Some id ->
  GetDetail photoID user st = (Some d, None) ->
  exists row names,
    In row (photos (tables st)) /\ ID row = id
    /\ ownerNamed (tables st) row (OwnerName d)
    /\ Detail_Photo d = withTags row (Tags row ++ names)
    /\ forall name, In name names <-> taggedWith (tables st) row name.
Proof.
  intros Hkey; unfold GetDetail.
  rewrite dbMap_SelectOne_detail.
  destruct (failure st CallSelectOne) as [[|m]|]; try discriminate.
  rewrite Hkey.
  destruct (queryDetail (tables st) id) as [|[row name] [|x l]] eqn:Eq;
    try discriminate.
  rewrite dbMap_SelectTags_byPhoto.
  destruct (failure st CallSelect); [discriminate|].
  intros H; injection H as <-; cbn [Detail_Photo OwnerName].
  assert (Hin : In (row, name) (queryDetail (tables st) id))
    by (rewrite Eq; left; reflexivity).
  apply queryDetail_In in Hin as (Hrow & Hid & Hown).
  exists row, (map Tag_Name (queryTags (tables st) (ID row))).
  repeat split; auto; apply queryTags_In.
Qed.

Lemma GetDetail_found_witness :
  exists d row names,
    GetDetail (lit "1") None Sample.store = (Some d, None)
    /\ In row (photos (tables Sample.store)) /\ ID row = 1
    /\ ownerNamed (tables Sample.store) row (OwnerName d)
    /\ Detail_Photo d = withTags row (Tags row ++ names)
    /\ forall name, In name names <-> taggedWith (tables Sample.store) row name.
Proof.
  eexists.
  destruct (GetDetail_found (lit "1") 1 None Sample.store _ eq_refl eq_refl)
    as (row & names & H).
  exists row, names; split; [reflexivity | exact H].
Defined.

(** The detail is an inner join with [users]: a photo whose owner has no
    row in [users] is reported as not found by [GetDetail], although [Get]
    finds it. *)
Theorem GetDetail_owner_missing
  (photoID : str) (id : Z) (user : option User) (st : Store) (row : Photo) :
  int8in photoID = Some id ->
  faults st CallSelectOne = None ->
  faults st CallGet = None ->
  In row (photos (tables st)) -> ID row = id ->
  (forall r u, In r (photos (tables st)) -> ID r = id ->
               In u (users (tables st)) -> u_id u <> OwnerID r) ->
  GetDetail photoID user st = (None, None)
  /\ exists p, Get photoID st = (Some p, None) /\ ID p = id.
Proof.
  intros Hkey Hf Hg Hrow Hid Horphan; split.
  - unfold GetDetail; rewrite dbMap_SelectOne_detail.
    unfold failure; rewrite Hf; cbn [option_map]; rewrite Hkey.
    destruct (queryDetail (tables st) id) as [|[r name] l] eqn:Eq; [reflexivity|].
    assert (Hin : In (r, name) (queryDetail (tables st) id))
      by (rewrite Eq; left; reflexivity).
    apply queryDetail_In in Hin as (Hr & Hrid & u & Hu & Ho & _).
    elim (Horphan r u Hr Hrid Hu Ho).
  - unfold Get, dbMap_Get, failure; rewrite Hg.
    cbn [option_map keyOfValue]; rewrite Hkey; unfold lookupPhoto.
    destruct (find (fun p => ID p =? id) (photos (tables st))) as [p|] eqn:E.
    + apply find_some in E as [_ Hpid]; apply Z.eqb_eq in Hpid.
      exists p; auto.
    + pose proof (find_none _ _ E row Hrow) as Hno; cbv beta in Hno.
      apply Z.eqb_eq in Hid; congruence.
Qed.

Lemma GetDetail_owner_missing_witness :
  let st := {| tables :=
                 {| photos := [Sample.photo 5 99 1 "Orphan" 0 0];
                    users := users Sample.db; tags := []; photo_tags := [];
                    photos_id_seq := 5; tags_id_seq := 0 |};
               clock := 0; faults := fun _ => None |} in
  GetDetail (lit "5") None st = (None, None)
  /\ exists p, Get (lit "5") st = (Some p, None) /\ ID p = 5.
Proof.
  intros st.
  apply (GetDetail_owner_missing (lit "5") 5 None st (Sample.photo 5 99 1 "Orphan" 0 0)).
  - reflexivity.
  - reflexivity.
  - reflexivity.
  - left; reflexivity.
  - reflexivity.
  - intros r u [<-|[]] _ [<-|[<-|[]]]; discriminate.
Defined.

(** When the query of the tags fails after the photo was found,
    [GetDetail] returns the error together with a detail: the photo row and
    the owner's name, without tags from the association and without
    permissions. *)
Theorem GetDetail_tags_query_fails
  (photoID : str) (id : Z) (user : option User) (st : Store)
  (row : Photo) (owner : str) (msg : string) :
  int8in photoID = Some id ->
  faults st CallSelectOne = None ->
  faults st CallSelect = Some msg ->
  queryDetail (tables st) id = [(row, owner)] ->
  GetDetail photoID user st
  = (Some {| Detail_Photo := row; OwnerName := owner;
             Detail_Permissions := None |},
     Some (PqError msg)).
Proof.
  intros Hkey Hf Hs Hq; unfold GetDetail.
  rewrite dbMap_SelectOne_detail.
  unfold failure at 1; rewrite Hf; cbn [option_map]; rewrite Hkey, Hq.
  rewrite dbMap_SelectTags_byPhoto; unfold failure; rewrite Hs; reflexivity.
Qed.

Lemma GetDetail_tags_query_fails_witness :
  let st := {| tables := Sample.db; clock := 0;
               faults := fun c => match c with
                                  | CallSelect => Some "timeout"%string
                                  | _ => None
                                  end |} in
  GetDetail (lit "1") (Some Sample.root) st
  = (Some {| Detail_Photo := Sample.photo 1 10 100 "Red Sunset" 0 0;
             OwnerName := lit "Dana"; Detail_Permissions := None |},
     Some (PqError "timeout")).
Proof.
  intros st.
  apply (GetDetail_tags_query_fails (lit "1") 1 (Some Sample.root) st); reflexivity.
Defined.

(** ** Pages *)

Lemma orderByDesc_length (ks : list OrderKey) (rows : list Photo) :
  List.length (orderByDesc ks rows) = List.length rows.
Proof.
  unfold orderByDesc; induction rows as [|r rows IH]; simpl; [reflexivity|].
  rewrite insertDesc_length, IH; reflexivity.
Qed.

Lemma limitOffset_page (l o : Z) (rows page : list Photo) :
  limitOffset l o rows = Some page ->
  page = firstn (Z.to_nat l) (skipn (Z.to_nat o) rows)
  /\ 0 <= o
  /\ (List.length page <= Z.to_nat l)%nat
  /\ (List.length page <= List.length rows)%nat
  /\ forall p, In p page -> In p rows.
Proof.
  unfold limitOffset.
  destruct (Z.ltb_spec l 0) as [|Hl]; [discriminate|].
  destruct (Z.ltb_spec o 0) as [|Ho]; [discriminate|]; cbn [orb].
  intros E; injection E as <-.
  split; [reflexivity|]; split; [assumption|].
  split; [apply firstn_le_length|].
  split.
  - rewrite length_firstn, length_skipn; lia.
  - intros p Hp.
    rewrite <- (firstn_skipn (Z.to_nat o) rows); apply in_or_app; right.
    rewrite <- (firstn_skipn (Z.to_nat l) (skipn (Z.to_nat o) rows)).
    apply in_or_app; left; exact Hp.
Qed.

Lemma limitOffset_negative (l o : Z) (rows : list Photo) :
  o < 0 -> limitOffset l o rows = None.
Proof.
  intros H; unfold limitOffset.
  apply Z.ltb_lt in H; rewrite H, orb_true_r; reflexivity.
Qed.

Lemma getOffset_nonpositive_page (pageNum : Z) :
  MinInt64 <= (pageNum - 1) * 12 -> pageNum <= 0 -> getOffset pageNum < 0.
Proof.
  intros Hlo Hp.
  assert (E : getOffset pageNum = (pageNum - 1) * 12).
  { unfold getOffset, mul64, sub64, PageSize.
    unfold MinInt64 in Hlo; change (2 ^ 63) with 9223372036854775808 in Hlo.
    rewrite (wrap64_in_range (pageNum - 1))
      by (unfold MinInt64, MaxInt64;
          change (2 ^ 63) with 9223372036854775808; lia).
    apply wrap64_in_range; unfold MinInt64, MaxInt64.
    change (2 ^ 63) with 9223372036854775808; lia. }
  rewrite E; lia.
Qed.


(** *** All *)

Lemma All_result (pageNum : Z) (orderBy : str) (st : Store) :
  All pageNum orderBy st
  = match failure st CallSelectInt with
    | Some e => (None, Some e)
    | None =>
        match failure st CallSelect with
        | Some e => (None, Some e)
        | None =>
            match limitOffset PageSize (getOffset pageNum)
                    (orderByDesc (keysOfAll orderBy) (photos (tables st))) with
            | Some rows =>
                (Some (NewPhotoList rows
                         (Z.of_nat (List.length (photos (tables st)))) pageNum),
                 None)
            | None => (None, Some negativeOffset)
            end
        end
    end.
Proof.
  unfold All, dbMap_SelectInt, dbMap_Select, keysOfAll.
  destruct (failure st CallSelectInt); [reflexivity|].
  change (queryInt (tables st) CountPhotos [])
    with (@inr string Z (Z.of_nat (List.length (photos (tables st))))).
  cbv iota.
  destruct (failure st CallSelect); [reflexivity|].
  rewrite queryPhotos_page.
  destruct (str_eqb orderBy (lit "votes"));
    [change (parseOrderBy (lit "(up_votes - down_votes)")) with (Some [ByVotes])
    |change (parseOrderBy (lit "created_at")) with (Some [ByCreatedAt])];
    cbv iota; destruct (limitOffset _ _ _); reflexivity.
Qed.

(** A page of [All] on a store that answers, for an offset that is not
    negative: the total is the number of rows of [photos], whatever the
    page; the photos are the twelve rows from the offset of the table in
    order, so at most twelve and all of them rows of the table; the page
    number is handed back as given. *)
Theorem All_page (pageNum : Z) (orderBy : str) (st : Store) :
  faults st CallSelectInt = None ->
  faults st CallSelect = None ->
  0 <= getOffset pageNum ->
  exists l,
    All pageNum orderBy st = (Some l, None)
    /\ Total l = Z.of_nat (List.length (photos (tables st)))
    /\ CurrentPage l = pageNum
    /\ Photos l = pageOf pageNum (orderByDesc (keysOfAll orderBy) (photos (tables st)))
    /\ (List.length (Photos l) <= 12)%nat
    /\ forall p, In p (Photos l) -> In p (photos (tables st)).
Proof.
  intros Hf1 Hf2 Hoff; rewrite All_result.
  unfold failure; rewrite Hf1, Hf2; cbn [option_map].
  destruct (limitOffset PageSize (getOffset pageNum) _) as [rows|] eqn:E.
  - apply limitOffset_page in E as (Hrows & _ & Hlen & _ & Hin).
    eexists; split; [reflexivity|]; cbn [Total CurrentPage Photos NewPhotoList].
    repeat split; auto.
    intros p Hp; apply Hin in Hp; apply orderByDesc_In in Hp; exact Hp.
  - unfold limitOffset in E.
    replace (getOffset pageNum <? 0) with false in E
      by (symmetry; apply Z.ltb_ge; assumption).
    discriminate.
Qed.

Lemma All_page_witness :
  exists l,
    All 2 (lit "votes") Sample.store = (Some l, None)
    /\ Total l = Z.of_nat (List.length (photos (tables Sample.store)))
    /\ CurrentPage l = 2
    /\ Photos l = pageOf 2 (orderByDesc (keysOfAll (lit "votes"))
                              (photos (tables Sample.store)))
    /\ (List.length (Photos l) <= 12)%nat
    /\ forall p, In p (Photos l) -> In p (photos (tables Sample.store)).
Proof.
  apply (All_page 2 (lit "votes") Sample.store);
    [reflexivity | reflexivity | discriminate].
Defined.

(** The order word of the caller never reaches the statement: any word
    but [votes], whatever it contains, gives the listing by creation
    time. *)
Theorem All_order_word_fallback (pageNum : Z) (orderBy : str) (st : Store) :
  orderBy <> lit "votes" ->
  All pageNum orderBy st = All pageNum [] st.
Proof.
  intros Hne; rewrite !All_result; unfold keysOfAll.
  destruct (str_eqb orderBy (lit "votes")) eqn:E; [|reflexivity].
  apply str_eqb_eq in E; contradiction.
Qed.

Lemma All_order_word_fallback_witness :
  All 1 (lit "created_at; DROP TABLE photos") Sample.store
  = All 1 [] Sample.store.
Proof. apply All_order_word_fallback; discriminate. Defined.

(** With a table of fewer than 2^53 rows and a page number from 1 on (as
    long as the offset is an [int64]), a page of [All] holds photos exactly
    when its number is at most [NumPages]. *)
Theorem All_pages_up_to_NumPages (pageNum : Z) (orderBy : str) (st : Store) :
  faults st CallSelectInt = None ->
  faults st CallSelect = None ->
  Z.of_nat (List.length (photos (tables st))) < 2 ^ 53 ->
  1 <= pageNum -> (pageNum - 1) * 12 <= MaxInt64 ->
  exists l,
    All pageNum orderBy st = (Some l, None)
    /\ (Photos l <> [] <-> pageNum <= NumPages l).
Proof.
  intros Hf1 Hf2 Hsize Hp Hmax.
  assert (Eoff : getOffset pageNum = (pageNum - 1) * 12).
  { unfold getOffset, mul64, sub64, PageSize.
    unfold MaxInt64 in Hmax; change (2 ^ 63) with 9223372036854775808 in Hmax.
    rewrite (wrap64_in_range (pageNum - 1))
      by (unfold MinInt64, MaxInt64;
          change (2 ^ 63) with 9223372036854775808; lia).
    apply wrap64_in_range; unfold MinInt64, MaxInt64.
    change (2 ^ 63) with 9223372036854775808; lia. }
  rewrite All_result; unfold failure; rewrite Hf1, Hf2; cbn [option_map].
  destruct (limitOffset PageSize (getOffset pageNum) _) as [page|] eqn:E;
    [|unfold limitOffset in E;
      replace (getOffset pageNum <? 0) with false in E
        by (symmetry; apply Z.ltb_ge; lia);
      discriminate].
  apply limitOffset_page in E as (Hph & _).
  eexists; split; [reflexivity|]; cbn [Photos NumPages NewPhotoList].
  assert (Hn : int64_of_Ceil
                 (fdiv (float64_of_int64 (Z.of_nat (List.length (photos (tables st)))))
                    (float64_of_int64 PageSize))
               = (Z.of_nat (List.length (photos (tables st))) + 11) / 12)
    by (apply numPages_exact; lia).
  rewrite Hn.
  pose proof (ceil_twelve (Z.of_nat (List.length (photos (tables st))))) as Hc.
  rewrite Hph, Eoff; change (Z.to_nat PageSize) with 12%nat.
  set (rows := orderByDesc (keysOfAll orderBy) (photos (tables st))).
  assert (Hlen : List.length rows = List.length (photos (tables st)))
    by apply orderByDesc_length.
  assert (Hne : forall (x : list Photo), x <> [] <-> (0 < List.length x)%nat).
  { intros [|a x]; simpl; split; try congruence; try lia; discriminate. }
  rewrite Hne, length_firstn, length_skipn, Hlen; lia.
Qed.

Lemma All_pages_up_to_NumPages_witness :
  exists l,
    All 2 [] Sample.store = (Some l, None)
    /\ (Photos l <> [] <-> 2 <= NumPages l).
Proof.
  apply (All_pages_up_to_NumPages 2 [] Sample.store);
    try reflexivity; discriminate.
Defined.

(** *** ByOwnerID *)

Lemma ByOwnerID_result (pageNum : Z) (ownerID : str) (st : Store) :
  ByOwnerID pageNum ownerID st
  = match failure st CallSelectInt with
    | Some e => (None, Some e)
    | None =>
        match int8in ownerID with
        | None => (None, Some (PqError "invalid input syntax for type bigint"))
        | Some owner =>
            match failure st CallSelect with
            | Some e => (None, Some e)
            | None =>
                match limitOffset PageSize (getOffset pageNum)
                        (orderByDesc [ByVotes; ByCreatedAt]
                           (ownerRows (tables st) owner)) with
                | Some rows =>
                    (Some (NewPhotoList rows
                             (Z.of_nat (List.length (ownerRows (tables st) owner)))
                             pageNum),
                     None)
                | None => (None, Some negativeOffset)
                end
            end
        end
    end.
Proof.
  unfold ByOwnerID, dbMap_SelectIntOwner, dbMap_SelectOwner.
  destruct (failure st CallSelectInt); [reflexivity|].
  unfold queryIntOwner, queryPhotosOwner.
  cbn [ownerPlaceholders arityOK forallb negb andb List.length seq existsb].
  change (bind [VStr ownerID] 1) with (Some (VStr ownerID)).
  change (bind [VStr ownerID; VInt PageSize; VInt (getOffset pageNum)] 1)
    with (Some (VStr ownerID)).
  change (bind [VStr ownerID; VInt PageSize; VInt (getOffset pageNum)] 2)
    with (Some (VInt PageSize)).
  change (bind [VStr ownerID; VInt PageSize; VInt (getOffset pageNum)] 3)
    with (Some (VInt (getOffset pageNum))).
  cbn [option_map keyOfValue].
  change (if negb _ then ?a else ?b) with b.
  destruct (int8in ownerID); [|reflexivity].
  destruct (failure st CallSelect); [reflexivity|].
  change (if negb _ then ?a else ?b) with b.
  destruct (limitOffset _ _ _); reflexivity.
Qed.

(** A page of [ByOwnerID] on a store that answers, for an owner text that
    denotes a key and an offset that is not negative: the total is the
    number of that owner's photos, whatever the page; the photos of the page
    are at most twelve rows of the table, all of that owner, best score
    first and newest first among equal scores. *)
Theorem ByOwnerID_page (pageNum : Z) (ownerID : str) (owner : Z) (st : Store) :
  int8in ownerID = Some owner ->
  faults st CallSelectInt = None ->
  faults st CallSelect = None ->
  0 <= getOffset pageNum ->
  exists l,
    ByOwnerID pageNum ownerID st = (Some l, None)
    /\ Total l = Z.of_nat (List.length (ownerRows (tables st) owner))
    /\ CurrentPage l = pageNum
    /\ (List.length (Photos l) <= 12)%nat
    /\ (forall p, In p (Photos l) ->
                  In p (photos (tables st)) /\ OwnerID p = owner)
    /\ orderedDesc [ByVotes; ByCreatedAt] (Photos l).
Proof.
  intros Hkey Hf1 Hf2 Hoff; rewrite ByOwnerID_result.
  unfold failure; rewrite Hf1, Hf2, Hkey; cbn [option_map].
  destruct (limitOffset PageSize (getOffset pageNum) _) as [rows|] eqn:E.
  - pose proof (limitOffset_ordered _ _ _ _ _
                  (orderByDesc_ordered [ByVotes; ByCreatedAt] _) E) as Hord.
    apply limitOffset_page in E as (Hrows & _ & Hlen & _ & Hin).
    eexists; split; [reflexivity|]; cbn [Total CurrentPage Photos NewPhotoList].
    repeat split; auto.
    + apply Hin, orderByDesc_In, filter_In in H; tauto.
    + apply Hin, orderByDesc_In, filter_In in H as [_ H].
      apply Z.eqb_eq; exact H.
  - unfold limitOffset in E.
    replace (getOffset pageNum <? 0) with false in E
      by (symmetry; apply Z.ltb_ge; assumption).
    discriminate.
Qed.

Lemma ByOwnerID_page_witness :
  exists l,
    ByOwnerID 1 (lit "10") Sample.store = (Some l, None)
    /\ Total l = Z.of_nat (List.length (ownerRows (tables Sample.store) 10))
    /\ CurrentPage l = 1
    /\ (List.length (Photos l) <= 12)%nat
    /\ (forall p, In p (Photos l) ->
                  In p (photos (tables Sample.store)) /\ OwnerID p = 10)
    /\ orderedDesc [ByVotes; ByCreatedAt] (Photos l).
Proof.
  apply (ByOwnerID_page 1 (lit "10") 10 Sample.store);
    [reflexivity | reflexivity | reflexivity | discriminate].
Defined.

(** An owner without photos, known or not, gets an empty list with total
    0 and no pages, not an error and not the nil of a missing object; an
    owner text that is not a number gets the store's error. *)
Theorem ByOwnerID_no_photos (pageNum : Z) (ownerID : str) (st : Store) :
  faults st CallSelectInt = None ->
  faults st CallSelect = None ->
  0 <= getOffset pageNum ->
  (forall owner, int8in ownerID = Some owner ->
     (forall p, In p (photos (tables st)) -> OwnerID p <> owner) ->
     ByOwnerID pageNum ownerID st
     = (Some {| Photos := []; Total := 0; CurrentPage := pageNum; NumPages := 0 |},
        None))
  /\ (int8in ownerID = None ->
      ByOwnerID pageNum ownerID st
      = (None, Some (PqError "invalid input syntax for type bigint"))).
Proof.
  intros Hf1 Hf2 Hoff; split.
  - intros owner Hkey Hnone; rewrite ByOwnerID_result.
    unfold failure; rewrite Hf1, Hf2, Hkey; cbn [option_map].
    assert (E : ownerRows (tables st) owner = []).
    { unfold ownerRows.
      induction (photos (tables st)) as [|p l IH]; [reflexivity|]; simpl.
      destruct (Z.eqb_spec (OwnerID p) owner) as [Eo|_].
      - elim (Hnone p (or_introl eq_refl) Eo).
      - apply IH; intros q Hq; apply Hnone; right; exact Hq. }
    rewrite E; unfold limitOffset.
    replace (getOffset pageNum <? 0) with false
      by (symmetry; apply Z.ltb_ge; assumption).
    cbn [orb Z.ltb Z.compare PageSize orderByDesc fold_right List.length Z.of_nat].
    rewrite skipn_nil, firstn_nil; reflexivity.
  - intros Hkey; rewrite ByOwnerID_result.
    unfold failure; rewrite Hf1, Hkey; reflexivity.
Qed.

Lemma ByOwnerID_no_photos_witness :
  ByOwnerID 1 (lit "11") Sample.store
  = (Some {| Photos := []; Total := 0; CurrentPage := 1; NumPages := 0 |}, None)
  /\ ByOwnerID 1 (lit "dana") Sample.store
     = (None, Some (PqError "invalid input syntax for type bigint")).
Proof.
  destruct (ByOwnerID_no_photos 1 (lit "11") Sample.store eq_refl eq_refl)
    as [H _]; [discriminate|].
  destruct (ByOwnerID_no_photos 1 (lit "dana") Sample.store eq_refl eq_refl)
    as [_ H']; [discriminate|].
  split.
  - apply (H 11); [reflexivity|].
    simpl; intros p [<-|[<-|[]]]; discriminate.
  - apply H'; reflexivity.
Defined.

(** A page number of 0 or less (as long as the product is an [int64]) is
    not clamped: the negative offset goes to the store, which refuses it, and
    [All] and [ByOwnerID] return that error instead of a list. *)
Theorem nonpositive_page_is_refused
  (pageNum : Z) (orderBy ownerID : str) (owner : Z) (st : Store) :
  MinInt64 <= (pageNum - 1) * 12 -> pageNum <= 0 ->
  faults st CallSelectInt = None ->
  faults st CallSelect = None ->
  int8in ownerID = Some owner ->
  All pageNum orderBy st = (None, Some negativeOffset)
  /\ ByOwnerID pageNum ownerID st = (None, Some negativeOffset).
Proof.
  intros Hlo Hp Hf1 Hf2 Hkey.
  pose proof (getOffset_nonpositive_page pageNum Hlo Hp) as Hneg.
  rewrite All_result, ByOwnerID_result.
  unfold failure; rewrite Hf1, Hf2, Hkey; cbn [option_map].
  rewrite !limitOffset_negative by assumption; split; reflexivity.
Qed.

Lemma nonpositive_page_is_refused_witness :
  All 0 [] Sample.store = (None, Some negativeOffset)
  /\ ByOwnerID 0 (lit "10") Sample.store = (None, Some negativeOffset).
Proof.
  apply (nonpositive_page_is_refused 0 [] (lit "10") 10 Sample.store);
    try reflexivity; discriminate.
Defined.

(** *** Search *)

Lemma Search_result (pageNum : Z) (q : str) (st : Store) :
  Search pageNum q st
  = if isEmpty q then (None, None)
    else
      match failure st CallSelectInt with
      | Some e => (None, Some e)
      | None =>
          match searchTokens q with
          | [] => (None, Some noClause)
          | _ :: _ =>
              match failure st CallSelect with
              | Some e => (None, Some e)
              | None =>
                  let rows := searchSet (tables st) (searchTokens q) in
                  match limitOffset PageSize (getOffset pageNum)
                          (orderByDesc [ByVotes; ByCreatedAt] rows) with
                  | Some page =>
                      (Some (NewPhotoList page (Z.of_nat (List.length rows))
                               pageNum),
                       None)
                  | None => (None, Some negativeOffset)
                  end
              end
          end
      end.
Proof.
  rewrite Search_by_tokens.
  destruct (isEmpty q); [reflexivity|]; cbv zeta.
  unfold dbMap_SelectInt, dbMap_Select.
  destruct (failure st CallSelectInt); [reflexivity|].
  destruct (searchTokens q) as [|w toks] eqn:E; [reflexivity|].
  rewrite queryInt_search by discriminate.
  destruct (failure st CallSelect); [reflexivity|].
  rewrite (queryPhotos_search (tables st) (w :: toks) PageSize
             (getOffset pageNum)) by discriminate.
  destruct (limitOffset _ _ _); reflexivity.
Qed.

(** A query that is not empty but keeps no token, because its first piece
    is blank, is not an empty search: the statement has no clause and the
    store's syntax error comes back. *)
Theorem Search_blank_first_piece (pageNum : Z) (q : str) (st : Store) :
  q <> [] ->
  searchTokens q = [] ->
  faults st CallSelectInt = None ->
  Search pageNum q st = (None, Some noClause).
Proof.
  intros Hq Ht Hf; rewrite Search_result, Ht.
  destruct q; [congruence|]; unfold failure; rewrite Hf; reflexivity.
Qed.

Lemma Search_blank_first_piece_witness :
  Search 1 (lit " sunset") Sample.store = (None, Some noClause).
Proof.
  apply Search_blank_first_piece; [discriminate | reflexivity | reflexivity].
Defined.

(** Whatever a search for ASCII text returns on a store whose text is
    ASCII: every photo of the page is a row of [photos] whose owner has a
    row in [users] and which satisfies the clause of every token kept; the
    page has at most twelve photos, no more than the total, best score first
    and newest first among equal scores. *)
Theorem Search_page (pageNum : Z) (q : str) (st : Store) (l : PhotoList) :
  isASCII q = true ->
  asciiTables (tables st) = true ->
  Search pageNum q st = (Some l, None) ->
  (forall p, In p (Photos l) ->
     In p (photos (tables st))
     /\ (exists u, In u (users (tables st)) /\ u_id u = OwnerID p)
     /\ forall w, In w (searchTokens q) ->
                  clauseMatch (tables st) (pattern w) p = true)
  /\ (List.length (Photos l) <= 12)%nat
  /\ Z.of_nat (List.length (Photos l)) <= Total l
  /\ CurrentPage l = pageNum
  /\ orderedDesc [ByVotes; ByCreatedAt] (Photos l).
Proof.
  intros _ _; rewrite Search_result.
  destruct (isEmpty q); [discriminate|].
  destruct (failure st CallSelectInt); [discriminate|].
  destruct (searchTokens q) as [|w toks] eqn:Et; [discriminate|].
  destruct (failure st CallSelect); [discriminate|]; cbv zeta.
  destruct (limitOffset _ _ _) as [page|] eqn:E; [|discriminate].
  intros H; injection H as <-; cbn [Photos Total CurrentPage NewPhotoList].
  pose proof (limitOffset_ordered _ _ _ _ _
                (orderByDesc_ordered [ByVotes; ByCreatedAt] _) E) as Hord.
  apply limitOffset_page in E as (_ & _ & Hlen & Hle & Hin).
  rewrite orderByDesc_length in Hle.
  split; [|repeat split; auto; lia].
  intros p Hp; apply Hin, orderByDesc_In in Hp.
  apply searchSet_In in Hp as [Hrow Hall]; [|discriminate].
  split; [assumption|]; split; [|assumption].
  apply (clauseMatch_has_owner _ (pattern w)), Hall; left; reflexivity.
Qed.

Lemma Search_page_witness :
  exists l,
    Search 1 (lit "red beach") Sample.store = (Some l, None)
    /\ (List.length (Photos l) <= 12)%nat
    /\ Z.of_nat (List.length (Photos l)) <= Total l.
Proof.
  eexists; split; [reflexivity|].
  destruct (Search_page 1 (lit "red beach") Sample.store _
              eq_refl eq_refl eq_refl)
    as (_ & H1 & H2 & _).
  split; assumption.
Defined.







(** ** The import of a directory *)

Lemma extBackwards_dot (r suffix : str) :
  extBackwards r suffix = []
  \/ exists a r', r = a ++ "."%char :: r'
                  /\ extBackwards r suffix = "."%char :: rev a ++ suffix.
Proof.
  revert suffix; induction r as [|c r IH]; intros suffix; simpl; [left; reflexivity|].
  destruct (Ascii.eqb c "/"); [left; reflexivity|].
  destruct (Ascii.eqb_spec c ".") as [->|_].
  - right; exists [], r; split; reflexivity.
  - destruct (IH (c :: suffix)) as [E|(a & r' & -> & E)]; [left; exact E|].
    right; exists (c :: a), r'; split; [reflexivity|].
    rewrite E; simpl; rewrite <- app_assoc; reflexivity.
Qed.

(** The extension is a suffix of the name. *)
Lemma pathExt_suffix (name : str) :
  exists stem, name = stem ++ pathExt name.
Proof.
  unfold pathExt.
  destruct (extBackwards_dot (rev name) []) as [E|(a & r' & Hr & E)].
  - rewrite E; exists name; rewrite app_nil_r; reflexivity.
  - rewrite E, app_nil_r; exists (rev r').
    rewrite <- (rev_involutive name), Hr, rev_app_distr; simpl.
    rewrite <- app_assoc; reflexivity.
Qed.

Lemma lowerChar_dot (c : ascii) : lowerChar c = "."%char -> c = "."%char.
Proof.
  destruct c as [[] [] [] [] [] [] [] []]; vm_compute; intros H;
    try reflexivity; discriminate.
Qed.

Lemma lowerChar_letter (c : ascii) :
  (97 <= N_of_ascii (lowerChar c) <= 122)%N ->
  Ascii.eqb c "/" = false /\ Ascii.eqb c "." = false.
Proof.
  destruct c as [[] [] [] [] [] [] [] []]; vm_compute; intros [H1 H2];
    try (split; reflexivity); try (elim H1; reflexivity); elim H2; reflexivity.
Qed.

Lemma ToLower_length (s : str) : List.length (ToLower s) = List.length s.
Proof. apply length_map. Qed.

(** A suffix spelling [.jpg] or [.png] in any letter case is the
    extension. *)
Lemma pathExt_of_image (stem e : str) :
  ToLower e = lit ".jpg" \/ ToLower e = lit ".png" ->
  pathExt (stem ++ e) = e.
Proof.
  intros He.
  assert (H4 : exists c0 c1 c2 c3, e = [c0; c1; c2; c3]
             /\ lowerChar c0 = "."%char
             /\ (97 <= N_of_ascii (lowerChar c1) <= 122)%N
             /\ (97 <= N_of_ascii (lowerChar c2) <= 122)%N
             /\ (97 <= N_of_ascii (lowerChar c3) <= 122)%N).
  { destruct e as [|c0 [|c1 [|c2 [|c3 [|c4 e]]]]];
      try (destruct He as [He|He]; discriminate).
    exists c0, c1, c2, c3; split; [reflexivity|].
    destruct He as [He|He]; injection He as -> -> -> ->;
      repeat split; vm_compute; discriminate. }
  destruct H4 as (c0 & c1 & c2 & c3 & -> & H0 & H1 & H2 & H3).
  apply lowerChar_dot in H0; subst c0.
  apply lowerChar_letter in H1 as [A1 B1], H2 as [A2 B2], H3 as [A3 B3].
  unfold pathExt; rewrite rev_app_distr; simpl.
  rewrite A3, B3, A2, B2, A1, B1; reflexivity.
Qed.

(** An entry of a directory, both named in ASCII text, is handed to
    [storeFile] exactly when its name ends in [.jpg] or [.png], in any
    letter case: the title is then the name without those four bytes and the
    content type goes with the extension; every other entry is skipped.
    (The tags are cut from the directory before the extension is looked at,
    so the directory must not be shorter than the base.) *)
Theorem scanFile_by_extension (baseDir dirname name : str) :
  isASCII dirname = true ->
  isASCII name = true ->
  (List.length baseDir <= List.length dirname)%nat ->
  let tags := SplitChar "/" (TrimSpace (skipn (List.length baseDir) dirname)) in
  (forall stem e,
     name = stem ++ e ->
     (ToLower e = lit ".jpg" ->
      scanFile baseDir dirname name = ScanStores stem (lit "image/jpeg") tags)
     /\ (ToLower e = lit ".png" ->
      scanFile baseDir dirname name = ScanStores stem (lit "image/png") tags))
  /\ (forall title contentType tags',
        scanFile baseDir dirname name = ScanStores title contentType tags' ->
        exists e, name = title ++ e
                  /\ (ToLower e = lit ".jpg" \/ ToLower e = lit ".png"))
  /\ scanFile baseDir dirname name <> ScanPanics.
Proof.
  intros _ _ Hlen tags.
  assert (Hl : (List.length dirname <? List.length baseDir)%nat = false)
    by (apply Nat.ltb_ge; exact Hlen).
  assert (Hstore : forall stem e,
            name = stem ++ e ->
            ToLower e = lit ".jpg" \/ ToLower e = lit ".png" ->
            scanFile baseDir dirname name
            = ScanStores stem
                (if str_eqb (ToLower e) (lit ".jpg") then lit "image/jpeg"
                 else lit "image/png") tags).
  { intros stem e -> He.
    unfold scanFile; rewrite Hl, (pathExt_of_image stem e He).
    assert (L4 : List.length e = 4%nat)
      by (rewrite <- ToLower_length; destruct He as [-> | ->]; reflexivity).
    assert (Et : firstn (List.length (stem ++ e) - 4) (stem ++ e) = stem).
    { rewrite length_app, L4, Nat.add_sub, firstn_app, Nat.sub_diag, firstn_all.
      simpl; apply app_nil_r. }
    rewrite Et.
    destruct He as [-> | ->]; reflexivity. }
  split; [|split].
  - intros stem e Hn; split; intros He.
    + rewrite (Hstore stem e Hn (or_introl He)), He; reflexivity.
    + rewrite (Hstore stem e Hn (or_intror He)), He; reflexivity.
  - intros title ct tags' H.
    destruct (pathExt_suffix name) as (stem & Hn).
    destruct (str_eqb (ToLower (pathExt name)) (lit ".jpg")) eqn:Ej.
    + apply str_eqb_eq in Ej.
      rewrite (Hstore stem (pathExt name) Hn (or_introl Ej)) in H.
      injection H as <- _ _; exists (pathExt name); auto.
    + destruct (str_eqb (ToLower (pathExt name)) (lit ".png")) eqn:Ep.
      * apply str_eqb_eq in Ep.
        rewrite (Hstore stem (pathExt name) Hn (or_intror Ep)) in H.
        injection H as <- _ _; exists (pathExt name); auto.
      * unfold scanFile in H; rewrite Hl, Ej, Ep in H; discriminate.
  - unfold scanFile; rewrite Hl.
    destruct (negb _ && negb _); discriminate.
Qed.

Lemma scanFile_by_extension_witness :
  scanFile (lit "/srv/in") (lit "/srv/in/trips/rome") (lit "Forum.JPG")
  = ScanStores (lit "Forum") (lit "image/jpeg") [lit ""; lit "trips"; lit "rome"].
Proof.
  destruct (scanFile_by_extension (lit "/srv/in") (lit "/srv/in/trips/rome")
              (lit "Forum.JPG")) as (H & _);
    [reflexivity | reflexivity | vm_compute; lia |].
  apply (proj1 (H (lit "Forum") (lit ".JPG") eq_refl)); reflexivity.
Defined.
